(** * fbtracert: the probe pipeline of [main.go], embedded and verified

  The first part of the file is the embedding, in the order of [main.go]:

  - [GoInt], [Float64], [Go]: machine integers, binary64 values, slices,
    maps and run-time panics;
  - [Wire]: the records [Probe], [ICMPResponse], [TCPResponse] and the
    parsed TCP header;
  - [Stamp]: the 32-bit sequence-number stamp written by [Sender];
  - [Receivers]: what [TCPReceiver] and [ICMPReceiver] do with one packet;
  - [Resolver]: one iteration of the resolver worker;
  - [Classifier]: [normalizeRcvd] and [isLossy];
  - [Correlator]: the counters, the two consumer loops of [main], the
    per-TTL stop channels, the truncation pass and the report.

  The second part states and proves the properties.

  Go [int] is the 64-bit signed integer, [uint32] the 32-bit unsigned
  one; both are carried as [Z] with the wrap-around written out. *)

From Stdlib Require Import ZArith Lia Bool.
From Stdlib Require Import Floats.SpecFloat.
From stdpp Require Import gmap strings list fin_maps.

(** ** Machine integers *)

Module GoInt.
Local Open Scope Z_scope.

(** Truncation to [uint32], as performed by the conversion [uint32(x)]
    and by every arithmetic operation on [uint32] operands. *)
Definition u32 (x : Z) : Z := x mod 2 ^ 32.

(** Two's complement wrap-around of the 64-bit [int]. *)
Definition wrap_int (x : Z) : Z := (x + 2 ^ 63) mod 2 ^ 64 - 2 ^ 63.

Definition max_int : Z := 2 ^ 63 - 1.

(** [x++] on an [int]. *)
Definition incr (x : Z) : Z := wrap_int (x + 1).

End GoInt.

(** ** float64 *)

Module Float64.
Local Open Scope Z_scope.

Definition prec : Z := 53.
Definition emax : Z := 1024.

Abbreviation float64 := spec_float.

Definition NaN : float64 := S754_nan.

(** The conversion [float64(n)] of an [int]: round to nearest, ties to
    even. *)
Definition of_int (n : Z) : float64 := binary_normalize prec emax n 0 false.

(** [x / y] *)
Definition div (x y : float64) : float64 := SFdiv prec emax x y.

(** [x >= y]; false as soon as one operand is NaN. *)
Definition geb (x y : float64) : bool :=
  match SFcompare x y with
  | Some (Gt | Eq) => true
  | _ => false
  end.

(** [x < y] *)
Definition ltb (x y : float64) : bool := SFltb x y.

(** [x == y] *)
Definition eqb (x y : float64) : bool := SFeqb x y.

Definition is_nan (x : float64) : bool :=
  match x with S754_nan => true | _ => false end.

(** The binary64 values nearest to the decimal literals 1.0, 0.9, 0.8
    and 0.1. *)
Definition f1_0 : float64 := S754_finite false 4503599627370496 (-52).
Definition f0_9 : float64 := S754_finite false 8106479329266893 (-53).
Definition f0_8 : float64 := S754_finite false 7205759403792794 (-53).
Definition f0_1 : float64 := S754_finite false 7205759403792794 (-56).

End Float64.

(** ** Slices, maps and panics *)

Module Go.
Local Open Scope Z_scope.

(** The run-time panics the modelled statements can raise. *)
Inductive panic : Set :=
  | IndexOutOfRange
  | SliceBoundsOutOfRange
  | CloseOfNilChannel
  | CloseOfClosedChannel.

(** A computation that either yields a value or panics. *)
Inductive result (A : Type) : Type :=
  | Ok (a : A)
  | Panic (p : panic).

Arguments Ok {A} a.
Arguments Panic {A} p.

Definition bind {A B} (r : result A) (k : A -> result B) : result B :=
  match r with
  | Ok a => k a
  | Panic p => Panic p
  end.

Notation "x <- r ;; k" := (bind r (fun x => k))
  (at level 100, r at next level, right associativity).

(** [len(s)] *)
Definition len {A} (s : list A) : Z := Z.of_nat (length s).

(** [s[i]], bounds-checked. *)
Definition index {A} (s : list A) (i : Z) : result A :=
  if (0 <=? i) && (i <? len s) then
    match s !! Z.to_nat i with
    | Some x => Ok x
    | None => Panic IndexOutOfRange
    end
  else Panic IndexOutOfRange.

(** [s[i] = x], bounds-checked. *)
Definition store {A} (s : list A) (i : Z) (x : A) : result (list A) :=
  if (0 <=? i) && (i <? len s) then Ok (<[Z.to_nat i := x]> s)
  else Panic IndexOutOfRange.

(** [s[:k]] for a slice whose capacity is its length (every slice of the
    program comes from [make([]T, n)]). *)
Definition slice_to {A} (s : list A) (k : Z) : result (list A) :=
  if (0 <=? k) && (k <=? len s) then Ok (take (Z.to_nat k) s)
  else Panic SliceBoundsOutOfRange.

(** [m[k]] for a map of slices: a missing key yields the nil slice. *)
Definition row {A} (m : gmap Z (list A)) (k : Z) : list A :=
  default [] (m !! k).

(** [m[k][i]] *)
Definition cell {A} (m : gmap Z (list A)) (k i : Z) : result A :=
  index (row m k) i.

(** [m[k][i] = x]: the element is written through the slice stored under
    [k]; a missing key panics on the index, so no key is ever added. *)
Definition store_cell {A} (m : gmap Z (list A)) (k i : Z) (x : A)
    : result (gmap Z (list A)) :=
  s <- store (row m k) i x ;;
  Ok (<[k := s]> m).

(** [m[k][i]++] *)
Definition incr_cell (m : gmap Z (list Z)) (k i : Z)
    : result (gmap Z (list Z)) :=
  x <- cell m k i ;;
  store_cell m k i (GoInt.incr x).

(** The state of a [chan struct{}] as far as [close] is concerned. *)
Inductive chan : Set :=
  | ChanNil
  | ChanOpen
  | ChanClosed.

(** [close(c)] *)
Definition close (c : chan) : result chan :=
  match c with
  | ChanNil => Panic CloseOfNilChannel
  | ChanOpen => Ok ChanClosed
  | ChanClosed => Panic CloseOfClosedChannel
  end.

End Go.

(** ** Records on the wire and on the channels *)

Module Wire.
Local Open Scope Z_scope.

Abbreviation IP := string.

Record Probe : Set := {
  srcPort : Z;
  ttl : Z
}.

Record ICMPResponse : Set := {
  icmpProbe : Probe;
  fromAddr : IP;
  fromName : string;
  icmpRtt : Z
}.

Record TCPResponse : Set := {
  tcpProbe : Probe;
  tcpRtt : Z
}.

(** The values sent on the response channels ([chan interface{}]). *)
Inductive Response : Set :=
  | RespICMP (resp : ICMPResponse)
  | RespTCP (resp : TCPResponse).

(** Modelled from the spec: the type [TCPHeader] returned by
    [parseTCPHeader] is declared in a file that is not under src/. The
    parser recovers source, destination, seq, ack and flags; the ports are
    16-bit, the sequence and acknowledgement numbers [uint32] (they are
    combined with [uint32] values in [main.go]). *)
Record TCPHeader : Set := {
  Source : Z;
  Destination : Z;
  SeqNum : Z;
  AckNum : Z;
  Flags : Z
}.

Definition wf_header (h : TCPHeader) : Prop :=
  0 <= Source h < 2 ^ 16 /\ 0 <= Destination h < 2 ^ 16 /\
  0 <= SeqNum h < 2 ^ 32 /\ 0 <= AckNum h < 2 ^ 32 /\
  0 <= Flags h < 2 ^ 8.

Definition resp_probe (r : Response) : Probe :=
  match r with
  | RespICMP resp => icmpProbe resp
  | RespTCP resp => tcpProbe resp
  end.

End Wire.

(** ** The stamp *)

Module Stamp.
Import GoInt.
Local Open Scope Z_scope.

(** [uint32(time.Now().UnixNano()/(1000*1000)) & 0x00ffffff], from the
    millisecond count [now_ms]. *)
Definition clock24 (now_ms : Z) : Z := Z.land (u32 now_ms) 0x00ffffff.

(** [seqNum := ((uint32(ttl) & 0xff) << 24) | (now & 0x00ffffff)] in
    [Sender]. *)
Definition seqNum (ttl now_ms : Z) : Z :=
  let now := clock24 now_ms in
  Z.lor (u32 (Z.shiftl (Z.land (u32 ttl) 0xff) 24)) (Z.land now 0x00ffffff).

(** The acknowledgement number of a segment answering a SYN whose
    sequence number is [s]. *)
Definition ack_of (s : Z) : Z := u32 (s + 1).

(** [ackNum := tcpHdr.AckNum - 1] *)
Definition ackNum_of (AckNum : Z) : Z := u32 (AckNum - 1).

(** [ttl := int(ackNum >> 24)] *)
Definition stamp_ttl (ackNum : Z) : Z := Z.shiftr ackNum 24.

(** [ts := ackNum & 0x00ffffff] *)
Definition stamp_ts (ackNum : Z) : Z := Z.land ackNum 0x00ffffff.

(** The stamp the TCP receiver recovers from an acknowledgement
    number. *)
Definition tcp_recover (AckNum : Z) : Z * Z :=
  let ackNum := ackNum_of AckNum in
  (stamp_ttl ackNum, stamp_ts ackNum).

End Stamp.

(** ** The receivers, one packet at a time *)

Module Receivers.
Import GoInt Wire Stamp.
Local Open Scope Z_scope.

(** The address families the program accepts. *)
Inductive family : Set := Ip4 | Ip6.

Section OnePacket.

(** The flag masks [RST] and [ACK] are constants declared in a file that
    is not under src/. *)
Variables RST ACK : Z.

Variable af : family.

(** *** TCPReceiver *)

Definition ipHdrSize : Z :=
  match af with Ip4 => 20 | Ip6 => 0 end.

Definition tcpHdrSize : Z := 20.

(** The body of the receive loop of [TCPReceiver] for one packet of [n]
    bytes whose TCP header parses to [tcpHdr], received from
    [fromAddrStr] when the clock reads [now_ms] milliseconds. [None] is
    [continue]: nothing is emitted. *)
Definition tcp_packet (targetAddr : string) (targetPort maxTTL : Z)
    (n : Z) (tcpHdr : TCPHeader) (fromAddrStr : string) (now_ms : Z)
    : option TCPResponse :=
  if n <? ipHdrSize + tcpHdrSize then None
  else if negb (Source tcpHdr =? targetPort) then None
  else if negb (Z.land (Flags tcpHdr) RST =? RST)
          && negb (Z.land (Flags tcpHdr) ACK =? ACK) then None
  else if negb (String.eqb fromAddrStr targetAddr) then None
  else
    let ackNum := ackNum_of (AckNum tcpHdr) in
    let ttl := stamp_ttl ackNum in
    if (ttl >? maxTTL) || (ttl <? 1) then None
    else
      let ts := stamp_ts ackNum in
      let now := clock24 now_ms in
      if ts >? now then None
      else Some {| tcpProbe := {| srcPort := Destination tcpHdr; ttl := ttl |};
                   tcpRtt := u32 (now - ts) |}.

(** *** ICMPReceiver *)

Definition outerIPHdrSize : Z :=
  match af with Ip4 => 20 | Ip6 => 0 end.

Definition innerIPHdrSize : Z :=
  match af with Ip4 => 20 | Ip6 => 40 end.

Definition icmpMsgType : Z :=
  match af with Ip4 => 11 | Ip6 => 3 end.

Definition icmpHdrSize : Z := 8.

(** The [tcpHdrSize] constant of [ICMPReceiver]. *)
Definition icmpTcpHdrSize : Z := 8.

(** The body of the receive loop of [ICMPReceiver] for one packet of [n]
    bytes, where [msgType] and [msgCode] are [packet[outerIPHdrSize]] and
    [packet[outerIPHdrSize+1]] and [tcpHdr] is the parse of the embedded
    TCP header. The name is left at its zero value. *)
Definition icmp_packet (n msgType msgCode : Z) (tcpHdr : TCPHeader)
    (from : IP) (now_ms : Z) : option ICMPResponse :=
  if n <? outerIPHdrSize + icmpHdrSize + innerIPHdrSize + icmpTcpHdrSize
  then None
  else if negb (msgType =? icmpMsgType) || negb (msgCode =? 0) then None
  else
    let ttl := Z.shiftr (SeqNum tcpHdr) 24 in
    let ts := Z.land (SeqNum tcpHdr) 0x00ffffff in
    let now := clock24 now_ms in
    Some {| icmpProbe := {| srcPort := Source tcpHdr; ttl := ttl |};
            fromAddr := from;
            fromName := EmptyString;
            icmpRtt := u32 (now - ts) |}.

End OnePacket.

(** The usual values of the two flag masks. *)
Definition RST_bit : Z := 0x04.
Definition ACK_bit : Z := 0x10.

End Receivers.

(** ** The resolver worker *)

Module Resolver.
Import Go Wire.

Section Worker.

(** [net.LookupAddr]: the names and the error it returns for an
    address. *)
Variable LookupAddr : string -> list string * option string.

(** One iteration of [for val := range input]: the value sent on [out],
    or the panic that ends the program. *)
Definition resolve (val : Response) : result Response :=
  match val with
  | RespICMP resp =>
      let '(names, err) := LookupAddr (fromAddr resp) in
      match err with
      | Some _ =>
          Ok (RespICMP {| icmpProbe := icmpProbe resp;
                          fromAddr := fromAddr resp;
                          fromName := "?";
                          icmpRtt := icmpRtt resp |})
      | None =>
          name <- index names 0 ;;
          Ok (RespICMP {| icmpProbe := icmpProbe resp;
                          fromAddr := fromAddr resp;
                          fromName := name;
                          icmpRtt := icmpRtt resp |})
      end
  | _ => Ok val
  end.

End Worker.

End Resolver.

(** ** normalizeRcvd and isLossy *)

Module Classifier.
Import Float64 Go.
Local Open Scope Z_scope.

(** [hitRates[i]] for an index the loops keep inside the slice. *)
Definition at_index (s : list float64) (i : Z) : float64 :=
  default NaN (s !! Z.to_nat i).

(** [normalizeRcvd]: [None] stands for the returned error. *)
Definition normalizeRcvd (sent rcvd : list Z) : option (list float64) :=
  if negb (len rcvd =? len sent) then None
  else Some (zip_with (fun r s => div (of_int r) (of_int s)) rcvd sent).

(** The inner loop of [isLossy],
    [for j := i + 1; j < len(hitRates); j++], entered with [found = true];
    the result is the value of [found] when the loop is left. *)
Fixpoint inner_loop (hitRates : list float64) (i j : Z) (fuel : nat) : bool :=
  match fuel with
  | O => true
  | S fuel' =>
      if j <? len hitRates then
        if geb (at_index hitRates j) (at_index hitRates i) then false
        else inner_loop hitRates i (j + 1) fuel'
      else true
  end.

(** The outer loop, [for i := 0; i < len(hitRates)-1 && !found; i++],
    on the pair [(found, segLen)]. *)
Fixpoint outer_loop (hitRates : list float64) (i : Z) (found : bool)
    (segLen : Z) (fuel : nat) : bool * Z :=
  match fuel with
  | O => (found, segLen)
  | S fuel' =>
      if (i <? len hitRates - 1) && negb found then
        let segLen' := len hitRates - i in
        let found' := inner_loop hitRates i (i + 1) (length hitRates) in
        outer_loop hitRates (i + 1) found' segLen' fuel'
      else (found, segLen)
  end.

Definition isLossy (hitRates : list float64) : bool :=
  let '(found, segLen) :=
    outer_loop hitRates 0 false 0 (length hitRates) in
  if segLen >? 2 then found else false.

(** What the inner loop tests of an index: no later sample compares
    [>=] to it. *)
Definition not_reached_after (h : list float64) (i : Z) : Prop :=
  forall j, i < j < len h -> geb (at_index h j) (at_index h i) = false.

(** The predicate in the words of the specification: every later sample
    is strictly lower, and more than two samples are left from [i] on. *)
Definition strictly_dominates (h : list float64) (i : Z) : Prop :=
  forall j, i < j < len h -> ltb (at_index h j) (at_index h i) = true.

Definition lossy_spec (h : list float64) : Prop :=
  exists i, 0 <= i /\ len h - i > 2 /\ strictly_dominates h i.

Definition no_nan (h : list float64) : Prop :=
  forall i, 0 <= i < len h -> is_nan (at_index h i) = false.

End Classifier.

(** ** The correlator of [main] *)

Module Correlator.
Import GoInt Go Wire.
Local Open Scope Z_scope.

(** The command-line flags the correlator reads, and the target name. *)
Record Options : Type := {
  maxTTL : Z;
  minTTL : Z;
  maxSrcPorts : Z;
  baseSrcPort : Z;
  showAll : bool;
  target : string
}.

Record Report : Type := {
  Paths : gmap Z (list string);
  Sent : gmap Z (list Z);
  Rcvd : gmap Z (list Z)
}.

Definition newReport : Report :=
  {| Paths := ∅; Sent := ∅; Rcvd := ∅ |}.

(** The variables of [main] the two loops work on. *)
Record State : Type := {
  counters : Report;
  names : list string;
  flappedPorts : gset Z;
  lastClosed : Z;
  senderDone : list chan
}.

(** What the two merged streams deliver: a [Probe] from the senders, or
    a response from the resolvers. The probe loop and the response loop
    run in two goroutines; a run is the order in which their iterations
    take effect. *)
Inductive event : Set :=
  | EvProbe (probe : Probe)
  | EvResponse (val : Response).

Section Main.

Variable flags : Options.

(** [senderDone] after the start-up loop
    [for ttl := *minTTL; ttl <= *maxTTL; ttl++], for [minTTL >= 1]: the
    slots below [minTTL - 1] stay nil. *)
Definition init_senderDone : list chan :=
  (fun i => if i <? minTTL flags - 1 then ChanNil else ChanOpen)
    <$> seqZ 0 (maxTTL flags).

(** One iteration of [for srcPort := *baseSrcPort; ...]. *)
Definition add_rows (c : Report) (port : Z) : Report :=
  let n := Z.to_nat (maxTTL flags) in
  {| Sent := <[port := replicate n 0]> (Sent c);
     Rcvd := <[port := replicate n 0]> (Rcvd c);
     Paths := <[port := replicate n "?"%string]> (Paths c) |}.

Definition init_counters : Report :=
  foldl add_rows newReport (seqZ (baseSrcPort flags) (maxSrcPorts flags)).

Definition init : State :=
  {| counters := init_counters;
     names := [];
     flappedPorts := ∅;
     lastClosed := maxTTL flags;
     senderDone := init_senderDone |}.

(** The probe loop: [counters.Sent[probe.srcPort][probe.ttl-1]++]. *)
Definition on_probe (st : State) (probe : Probe) : result State :=
  let c := counters st in
  sent <- incr_cell (Sent c) (srcPort probe) (ttl probe - 1) ;;
  Ok {| counters := {| Paths := Paths c; Sent := sent; Rcvd := Rcvd c |};
        names := names st;
        flappedPorts := flappedPorts st;
        lastClosed := lastClosed st;
        senderDone := senderDone st |}.

(** [case ICMPResponse] of the response loop. *)
Definition on_icmp (st : State) (resp : ICMPResponse) : result State :=
  let c := counters st in
  let p := icmpProbe resp in
  rcvd <- incr_cell (Rcvd c) (srcPort p) (ttl p - 1) ;;
  currName <- cell (Paths c) (srcPort p) (ttl p - 1) ;;
  let flapped :=
    if negb (String.eqb currName "?") && negb (String.eqb currName (fromName resp))
    then {[srcPort p]} ∪ flappedPorts st
    else flappedPorts st in
  paths <- store_cell (Paths c) (srcPort p) (ttl p - 1) (fromName resp) ;;
  Ok {| counters := {| Paths := paths; Sent := Sent c; Rcvd := rcvd |};
        names := names st ++ [fromName resp];
        flappedPorts := flapped;
        lastClosed := lastClosed st;
        senderDone := senderDone st |}.

(** [for i := resp.ttl; i < lastClosed; i++ { close(senderDone[i]) }],
    from the current value of [i]. *)
Fixpoint close_loop (done : list chan) (i last : Z) (fuel : nat)
    : result (list chan) :=
  match fuel with
  | O => Ok done
  | S fuel' =>
      if i <? last then
        c <- index done i ;;
        c' <- close c ;;
        done' <- store done i c' ;;
        close_loop done' (i + 1) last fuel'
      else Ok done
  end.

Definition close_senders (done : list chan) (ttl last : Z)
    : result (list chan) :=
  close_loop done ttl last (Z.to_nat (last - ttl)).

(** [case TCPResponse] of the response loop. *)
Definition on_tcp (st : State) (resp : TCPResponse) : result State :=
  let c := counters st in
  let p := tcpProbe resp in
  done <- close_senders (senderDone st) (ttl p) (lastClosed st) ;;
  let last := if ttl p <? lastClosed st then ttl p else lastClosed st in
  rcvd <- incr_cell (Rcvd c) (srcPort p) (ttl p - 1) ;;
  paths <- store_cell (Paths c) (srcPort p) (ttl p - 1) (target flags) ;;
  Ok {| counters := {| Paths := paths; Sent := Sent c; Rcvd := rcvd |};
        names := names st;
        flappedPorts := flappedPorts st;
        lastClosed := last;
        senderDone := done |}.

Definition step (st : State) (ev : event) : result State :=
  match ev with
  | EvProbe probe => on_probe st probe
  | EvResponse (RespICMP resp) => on_icmp st resp
  | EvResponse (RespTCP resp) => on_tcp st resp
  end.

Fixpoint run (st : State) (evs : list event) : result State :=
  match evs with
  | [] => Ok st
  | ev :: evs' => st' <- step st ev ;; run st' evs'
  end.

(** *** Truncation *)

(** [for i := range hopVector]: the first index [i] with
    [hopVector[i] == target && i < *maxTTL-1], counting from [i]. *)
Fixpoint scan_target (hopVector : list string) (i : Z) : option Z :=
  match hopVector with
  | [] => None
  | hop :: rest =>
      if String.eqb hop (target flags) && (i <? maxTTL flags - 1) then Some i
      else scan_target rest (i + 1)
  end.

(** The body of [for srcPort, hopVector := range counters.Paths]. The
    assignment [hopVector = hopVector[:i+1]] changes the loop variable
    only: the slice stored in [counters.Paths] keeps its length. *)
Definition truncate_row (c : Report) (port : Z) (hopVector : list string)
    : result Report :=
  match scan_target hopVector 0 with
  | Some i =>
      sent <- slice_to (row (Sent c) port) (i + 1) ;;
      rcvd <- slice_to (row (Rcvd c) port) (i + 1) ;;
      Ok {| Paths := Paths c;
            Sent := <[port := sent]> (Sent c);
            Rcvd := <[port := rcvd]> (Rcvd c) |}
  | None => Ok c
  end.

Fixpoint truncate_rows (c : Report) (rows : list (Z * list string))
    : result Report :=
  match rows with
  | [] => Ok c
  | (port, hopVector) :: rest =>
      c' <- truncate_row c port hopVector ;;
      truncate_rows c' rest
  end.

Definition truncate (c : Report) : result Report :=
  truncate_rows c (map_to_list (Paths c)).

(** *** The report *)

(** The body of [for port, sentVector := range counters.Sent]. *)
Definition classify_row (flapped : gset Z) (c lossy : Report) (port : Z)
    (sentVector : list Z) : result Report :=
  if decide (port ∈ flapped) then Ok lossy
  else
    match Rcvd c !! port with
    | Some rcvdVector =>
        match Classifier.normalizeRcvd sentVector rcvdVector with
        | None => Ok lossy
        | Some norm =>
            if Classifier.isLossy norm || showAll flags then
              hosts <- slice_to (row (Paths c) port) (len norm) ;;
              Ok {| Sent := <[port := sentVector]> (Sent lossy);
                    Rcvd := <[port := rcvdVector]> (Rcvd lossy);
                    Paths := <[port := hosts]> (Paths lossy) |}
            else Ok lossy
        end
    | None => Ok lossy
    end.

Fixpoint classify_rows (flapped : gset Z) (c lossy : Report)
    (rows : list (Z * list Z)) : result Report :=
  match rows with
  | [] => Ok lossy
  | (port, sentVector) :: rest =>
      lossy' <- classify_row flapped c lossy port sentVector ;;
      classify_rows flapped c lossy' rest
  end.

Definition classify (flapped : gset Z) (c : Report) : result Report :=
  classify_rows flapped c newReport (map_to_list (Sent c)).

(** *** Vocabulary of the statements *)

(** The TTLs of the TCP responses of a run, in order. *)
Fixpoint tcp_ttls (evs : list event) : list Z :=
  match evs with
  | [] => []
  | EvResponse (RespTCP resp) :: evs' => ttl (tcpProbe resp) :: tcp_ttls evs'
  | _ :: evs' => tcp_ttls evs'
  end.

(** The minimum of [d] and the elements of [l]. *)
Definition min_list (d : Z) (l : list Z) : Z := foldr Z.min d l.

(** A port of the sweep; an event whose port and TTL address a counter
    created at start-up, and whose TTL, for a TCP response, is not below
    a nil stop channel. *)
Definition swept (p : Z) : Prop :=
  baseSrcPort flags <= p < baseSrcPort flags + maxSrcPorts flags.

Definition in_sweep (probe : Probe) : Prop :=
  swept (srcPort probe) /\ 1 <= ttl probe <= maxTTL flags.

Definition valid_event (ev : event) : Prop :=
  match ev with
  | EvProbe probe => in_sweep probe
  | EvResponse (RespICMP resp) => in_sweep (icmpProbe resp)
  | EvResponse (RespTCP resp) =>
      in_sweep (tcpProbe resp) /\ minTTL flags - 1 <= ttl (tcpProbe resp)
  end.

(** Whether an event adds one to [Sent[p][t]], to [Rcvd[p][t]]. *)
Definition hits_sent (p t : Z) (ev : event) : bool :=
  match ev with
  | EvProbe probe => (p =? srcPort probe) && (t =? ttl probe - 1)
  | EvResponse _ => false
  end.

Definition hits_rcvd (p t : Z) (ev : event) : bool :=
  match ev with
  | EvProbe _ => false
  | EvResponse val =>
      (p =? srcPort (resp_probe val)) && (t =? ttl (resp_probe val) - 1)
  end.

(** [x++] when the event hits the cell. *)
Definition bump (hit : bool) (r : result Z) : result Z :=
  if hit then x <- r ;; Ok (incr x) else r.

(** The number of probe records, of responses, of a run for port [p] and
    TTL index [t]. *)
Definition count_probes (p t : Z) (evs : list event) : Z :=
  len (filter (fun ev => hits_sent p t ev = true) evs).

Definition count_responses (p t : Z) (evs : list event) : Z :=
  len (filter (fun ev => hits_rcvd p t ev = true) evs).

(** The state of the stop channel in slot [j] once the watermark is
    [last]: nil below [minTTL - 1], closed from [last] on, open in
    between. *)
Definition chan_at (last j : Z) : chan :=
  if j <? minTTL flags - 1 then ChanNil
  else if last <=? j then ChanClosed
  else ChanOpen.

(** [senderDone] is exactly what the watermark [lastClosed] says. *)
Definition watermark_inv (st : State) : Prop :=
  lastClosed st <= maxTTL flags /\
  forall j, index (senderDone st) j
            = if (0 <=? j) && (j <? maxTTL flags)
              then Ok (chan_at (lastClosed st) j)
              else Panic IndexOutOfRange.

(** Every row of a port of the sweep has the length it was made with. *)
Definition rows_inv (st : State) : Prop :=
  forall p, swept p ->
    len (row (Sent (counters st)) p) = Z.max 0 (maxTTL flags) /\
    len (row (Rcvd (counters st)) p) = Z.max 0 (maxTTL flags) /\
    len (row (Paths (counters st)) p) = Z.max 0 (maxTTL flags).

(** The stop channel of the sender that probes TTL [t]. *)
Definition stop_channel (st : State) (t : Z) : result chan :=
  index (senderDone st) (t - 1).

End Main.

End Correlator.

(** ** Sample configurations and events *)

Module Samples.
Import Wire Correlator.
Local Open Scope Z_scope.

(** The default values of the flags. *)
Definition default_flags : Options :=
  {| maxTTL := 30; minTTL := 1; maxSrcPorts := 256; baseSrcPort := 32768;
     showAll := false; target := "target.example" |}.

(** Four TTLs and two ports. *)
Definition small_flags : Options :=
  {| maxTTL := 4; minTTL := 1; maxSrcPorts := 2; baseSrcPort := 32768;
     showAll := false; target := "target.example" |}.

Definition probe_ev (p t : Z) : event :=
  EvProbe {| srcPort := p; ttl := t |}.

Definition icmp_ev (p t : Z) (name : string) : event :=
  EvResponse (RespICMP {| icmpProbe := {| srcPort := p; ttl := t |};
                          fromAddr := "198.51.100.7";
                          fromName := name;
                          icmpRtt := 1 |}).

Definition tcp_ev (p t : Z) : event :=
  EvResponse (RespTCP {| tcpProbe := {| srcPort := p; ttl := t |};
                         tcpRtt := 1 |}).

(** A target two hops away answering the probes of TTL 2 and 3 of one
    port. *)
Definition two_hop_run : list event :=
  [probe_ev 32768 1; probe_ev 32768 2; probe_ev 32768 3;
   icmp_ev 32768 1 "hop1.example"; tcp_ev 32768 2; tcp_ev 32768 3].

End Samples.

(** ** The sender loop and the start-up arithmetic *)

Module Sender.
Import GoInt Wire.
Local Open Scope Z_scope.

(** [numIters], the product of the flags [maxTime] and [probeRate]
    divided by the flag [maxSrcPorts], as computed in [main]; [None] is
    the integer-divide-by-zero panic. Go's [/] truncates towards zero. *)
Definition numIters (maxTime probeRate maxSrcPorts : Z) : option Z :=
  if maxSrcPorts =? 0 then None
  else Some (wrap_int (Z.quot (wrap_int (maxTime * probeRate)) maxSrcPorts)).

(** The test [if numIters <= 1 { ...; return }]: whether [main] goes on
    to start the senders. *)
Definition enough_iterations (n : Z) : bool := negb (n <=? 1).

(** The probe of iteration [i] of
    [for i := 0; i < maxSrcPorts*maxIters; i++], with
    [srcPort := baseSrcPort + i%maxSrcPorts]. *)
Definition probe_at (baseSrcPort maxSrcPorts ttl i : Z) : Probe :=
  {| srcPort := wrap_int (baseSrcPort + Z.rem i maxSrcPorts); ttl := ttl |}.

(** The probes a sender publishes when it runs to the end of its loop. *)
Definition probes (baseSrcPort maxSrcPorts maxIters ttl : Z) : list Probe :=
  probe_at baseSrcPort maxSrcPorts ttl
    <$> seqZ 0 (wrap_int (maxSrcPorts * maxIters)).

(** The probes published by a sender that leaves its loop (send error or
    stop signal) after [k] publications. *)
Definition published (baseSrcPort maxSrcPorts maxIters ttl : Z) (k : nat)
    : list Probe :=
  take k (probes baseSrcPort maxSrcPorts maxIters ttl).

End Sender.

(** ** The tables of printLossyPaths *)

Module Printer.
Import Go.
Local Open Scope Z_scope.

(** [s[lo:hi]] for a slice whose capacity is its length. *)
Definition slice {A} (s : list A) (lo hi : Z) : result (list A) :=
  if (0 <=? lo) && (lo <=? hi) && (hi <=? len s)
  then Ok (drop (Z.to_nat lo) (take (Z.to_nat hi) s))
  else Panic SliceBoundsOutOfRange.

(** The ports shown in table [i]: [allPorts[i*maxColumns : maxOffset]]
    with [maxOffset] capped at [len(allPorts)]. *)
Definition table_ports (allPorts : list Z) (maxColumns i : Z)
    : result (list Z) :=
  let maxOffset := (i + 1) * maxColumns in
  let maxOffset :=
    if maxOffset >? len allPorts then len allPorts else maxOffset in
  slice allPorts (i * maxColumns) maxOffset.

(** [for i := 0; i < len(allPorts)/maxColumns; i++], from [i] on: the
    port lists of the tables rendered. *)
Fixpoint tables_loop (allPorts : list Z) (maxColumns i : Z) (fuel : nat)
    : result (list (list Z)) :=
  match fuel with
  | O => Ok []
  | S fuel' =>
      if i <? Z.quot (len allPorts) maxColumns then
        ports <- table_ports allPorts maxColumns i ;;
        rest <- tables_loop allPorts maxColumns (i + 1) fuel' ;;
        Ok (ports :: rest)
      else Ok []
  end.

(** The port lists of all the tables [printLossyPaths] renders for the
    ports [allPorts] (the keys of [hops], in the order the map yields
    them); [None] is the integer-divide-by-zero panic of
    [len(allPorts)/maxColumns]. *)
Definition tables (allPorts : list Z) (maxColumns : Z)
    : option (result (list (list Z))) :=
  if maxColumns =? 0 then None
  else Some (tables_loop allPorts maxColumns 0 (length allPorts)).

End Printer.

(** ** More vocabulary for the correlator *)

Module Events.
Import Go Wire Correlator.
Local Open Scope Z_scope.

(** The probe an event is about. *)
Definition event_probe (ev : event) : Probe :=
  match ev with
  | EvProbe probe => probe
  | EvResponse val => resp_probe val
  end.

(** The name the response loop writes into [counters.Paths] for a
    response: the resolved name of the hop, or the target. *)
Definition written_name (flags : Options) (val : Response) : string :=
  match val with
  | RespICMP resp => fromName resp
  | RespTCP _ => target flags
  end.

(** The ports of the ICMP responses of a run. *)
Definition is_icmp_for (p : Z) (ev : event) : Prop :=
  match ev with
  | EvResponse (RespICMP resp) => srcPort (icmpProbe resp) = p
  | _ => False
  end.

(** What the names and the flapped ports of a state owe to the events
    processed so far: a cell holds a name other than ["?"] only after a
    response hit it, and a port is flapped only after two responses hit
    one of its cells. *)
Definition flap_inv (st : State) (seen : list event) : Prop :=
  (forall p t name,
     cell (Paths (counters st)) p t = Ok name -> name <> "?"%string ->
     1 <= count_responses p t seen) /\
  (forall p, p ∈ flappedPorts st ->
             exists t, 2 <= count_responses p t seen).

(** What the report loop decides for a port with the [Sent] row
    [sentVector]: nothing for a flapped port, for a port without [Rcvd]
    row, for rows of different lengths and for a path that is neither
    lossy nor shown by [showAll]; otherwise the [Rcvd] row and the hops
    copied from [counters.Paths]. *)
Definition report_entry (flags : Options) (flapped : gset Z) (c : Report)
    (port : Z) (sentVector : list Z) : option (list Z * list string) :=
  if decide (port ∈ flapped) then None
  else
    match Rcvd c !! port with
    | Some rcvdVector =>
        match Classifier.normalizeRcvd sentVector rcvdVector with
        | Some norm =>
            if Classifier.isLossy norm || showAll flags
            then Some (rcvdVector,
                       take (Z.to_nat (len norm)) (row (Paths c) port))
            else None
        | None => None
        end
    | None => None
    end.

End Events.

(** * Properties *)

(** ** Machine integers *)

Module GoIntFacts.
Import GoInt.
Local Open Scope Z_scope.

Lemma wrap_int_small x : - 2 ^ 63 <= x < 2 ^ 63 -> wrap_int x = x.
Proof.
  intros Hx. unfold wrap_int.
  rewrite Z.mod_small; lia.
Qed.

Lemma incr_small x : 0 <= x < max_int -> incr x = x + 1.
Proof.
  intros Hx. unfold incr, max_int in *. apply wrap_int_small. lia.
Qed.

Lemma u32_range x : 0 <= u32 x < 2 ^ 32.
Proof. unfold u32. apply Z.mod_pos_bound. lia. Qed.

Lemma u32_small x : 0 <= x < 2 ^ 32 -> u32 x = x.
Proof. intros Hx. unfold u32. apply Z.mod_small; lia. Qed.

(** Adding one and taking it away again, each modulo [2^32]. *)
Lemma u32_succ_pred s : 0 <= s < 2 ^ 32 -> u32 (u32 (s + 1) - 1) = s.
Proof.
  intros Hs. unfold u32.
  rewrite Zminus_mod_idemp_l.
  replace (s + 1 - 1) with s by lia.
  apply Z.mod_small. lia.
Qed.

Lemma mod32_mod24 x : (x mod 2 ^ 32) mod 2 ^ 24 = x mod 2 ^ 24.
Proof.
  apply Z.mod_mod_divide. exists (2 ^ 8). reflexivity.
Qed.

Lemma mod32_mod8 x : (x mod 2 ^ 32) mod 2 ^ 8 = x mod 2 ^ 8.
Proof.
  apply Z.mod_mod_divide. exists (2 ^ 24). reflexivity.
Qed.

Lemma land_ff x : Z.land x 0xff = x mod 2 ^ 8.
Proof. change 0xff with (Z.ones 8). apply Z.land_ones. lia. Qed.

Lemma land_ffffff x : Z.land x 0x00ffffff = x mod 2 ^ 24.
Proof. change 0x00ffffff with (Z.ones 24). apply Z.land_ones. lia. Qed.

End GoIntFacts.

(** ** float64 *)

Module Float64Facts.
Import Float64.
Local Open Scope Z_scope.

Lemma compare_none x y :
  SFcompare x y = None -> is_nan x = true \/ is_nan y = true.
Proof.
  destruct x as [sx|sx| |sx mx ex], y as [sy|sy| |sy my ey];
    simpl; intros H; auto; discriminate.
Qed.

(** Away from NaN the negation of [>=] is [<]. *)
Lemma geb_false_ltb x y :
  is_nan x = false -> is_nan y = false ->
  geb x y = false <-> ltb x y = true.
Proof.
  intros Hx Hy. unfold geb, ltb, SFltb.
  destruct (SFcompare x y) as [[ | | ]|] eqn:E; try (split; congruence).
  apply compare_none in E. destruct E; congruence.
Qed.

Lemma eqb_geb x y : eqb x y = true -> geb x y = true.
Proof.
  unfold eqb, SFeqb, geb.
  destruct (SFcompare x y) as [[ | | ]|]; congruence.
Qed.

Lemma eqb_not_ltb x y : eqb x y = true -> ltb x y = false.
Proof.
  unfold eqb, SFeqb, ltb, SFltb.
  destruct (SFcompare x y) as [[ | | ]|]; congruence.
Qed.

(** With NaN on the right both [>=] and [<] fail. *)
Lemma geb_nan_r x : geb x NaN = false.
Proof. destruct x; reflexivity. Qed.

Lemma ltb_nan_r x : ltb x NaN = false.
Proof. destruct x; reflexivity. Qed.

(** The literals are the quotients [normalizeRcvd] computes. *)
Lemma f0_8_div : div (of_int 8) (of_int 10) = f0_8.
Proof. vm_compute. reflexivity. Qed.

Lemma f0_9_div : div (of_int 9) (of_int 10) = f0_9.
Proof. vm_compute. reflexivity. Qed.

Lemma f0_1_div : div (of_int 1) (of_int 10) = f0_1.
Proof. vm_compute. reflexivity. Qed.

Lemma f1_0_div : div (of_int 10) (of_int 10) = f1_0.
Proof. vm_compute. reflexivity. Qed.

Lemma nan_div : div (of_int 0) (of_int 0) = NaN.
Proof. vm_compute. reflexivity. Qed.

End Float64Facts.

(** ** isLossy *)

Module ClassifierFacts.
Import Float64 Float64Facts Go Classifier.
Local Open Scope Z_scope.

Lemma inner_loop_spec h i fuel : forall j,
  len h - j <= Z.of_nat fuel ->
  inner_loop h i j fuel = true <->
  (forall k, j <= k < len h -> geb (at_index h k) (at_index h i) = false).
Proof.
  induction fuel as [|fuel IH]; intros j Hfuel; simpl.
  - split; [intros _ k Hk; lia | reflexivity].
  - destruct (Z.ltb_spec j (len h)) as [Hlt|Hge].
    + destruct (geb (at_index h j) (at_index h i)) eqn:Hcmp.
      * split; [discriminate|]. intros Hall.
        rewrite Hall in Hcmp by lia. discriminate.
      * rewrite IH by lia. split.
        -- intros Hall k Hk. destruct (Z.eq_dec k j) as [->|Hne]; [assumption|].
           apply Hall. lia.
        -- intros Hall k Hk. apply Hall. lia.
    + split; [intros _ k Hk; lia | reflexivity].
Qed.

Lemma inner_loop_dominates h i :
  0 <= i ->
  inner_loop h i (i + 1) (length h) = true <-> not_reached_after h i.
Proof.
  intros Hi.
  unfold not_reached_after. rewrite inner_loop_spec by (unfold len; lia).
  split; intros Hall k Hk; apply Hall; lia.
Qed.

(** Once [found] is set the loop condition fails. *)
Lemma outer_loop_found h fuel : forall i segLen,
  outer_loop h i true segLen fuel = (true, segLen).
Proof.
  destruct fuel as [|fuel]; intros i segLen; simpl; [reflexivity|].
  rewrite andb_false_r. reflexivity.
Qed.

Lemma outer_loop_spec h fuel : forall i segLen,
  0 <= i -> len h - 1 - i <= Z.of_nat fuel ->
  (fst (outer_loop h i false segLen fuel) = true /\
   snd (outer_loop h i false segLen fuel) > 2) <->
  (exists k, i <= k /\ len h - k > 2 /\ not_reached_after h k).
Proof.
  induction fuel as [|fuel IH]; intros i segLen Hi Hfuel; simpl.
  - split; [intros [? _]; discriminate|]. intros (k & ? & ? & _). lia.
  - destruct (Z.ltb_spec i (len h - 1)) as [Hlt|Hge]; simpl.
    + destruct (inner_loop h i (i + 1) (length h)) eqn:Hin.
      * rewrite outer_loop_found. simpl.
        apply inner_loop_dominates in Hin; [|assumption]. split.
        -- intros [_ Hseg]. exists i. repeat split; [lia|lia|assumption].
        -- intros (k & ? & ? & _). split; [reflexivity|lia].
      * rewrite IH by lia. split.
        -- intros (k & ? & ? & ?). exists k. repeat split; [lia|lia|assumption].
        -- intros (k & Hk & Hseg & Hdom).
           destruct (Z.eq_dec k i) as [->|Hne].
           ++ apply inner_loop_dominates in Hdom; [congruence|assumption].
           ++ exists k. repeat split; [lia|lia|assumption].
    + split; [intros [? _]; discriminate|]. intros (k & ? & ? & _). lia.
Qed.

(** [isLossy] in terms of the comparison it performs: some index with
    more than two samples from it onwards is not reached ([>=]) by any
    later sample. *)
Lemma isLossy_not_reached h :
  isLossy h = true <->
  exists i, 0 <= i /\ len h - i > 2 /\ not_reached_after h i.
Proof.
  rewrite <- (outer_loop_spec h (length h) 0 0) by (unfold len; lia).
  unfold isLossy.
  destruct (outer_loop h 0 false 0 (length h)) as [found segLen]; simpl.
  destruct (Z.gtb_spec segLen 2); split.
  - intros ->. split; [reflexivity|lia].
  - intros [-> _]. reflexivity.
  - discriminate.
  - intros [_ ?]. lia.
Qed.

Lemma no_nan_dominates h i :
  no_nan h -> 0 <= i ->
  not_reached_after h i <-> strictly_dominates h i.
Proof.
  intros Hnan Hi. unfold not_reached_after, strictly_dominates.
  split; intros Hall j Hj; specialize (Hall j Hj).
  - apply geb_false_ltb; [apply Hnan; lia|apply Hnan; lia|assumption].
  - apply geb_false_ltb; [apply Hnan; lia|apply Hnan; lia|assumption].
Qed.

(** On vectors without NaN, [isLossy] is the predicate of the
    specification. *)
Lemma isLossy_no_nan h :
  no_nan h -> isLossy h = true <-> lossy_spec h.
Proof.
  intros Hnan. rewrite isLossy_not_reached. unfold lossy_spec.
  split; intros (i & Hi & Hseg & Hdom); exists i; repeat split; try assumption.
  - apply no_nan_dominates; assumption.
  - apply no_nan_dominates; assumption.
Qed.

(** An index followed by an equal sample does not qualify, for the loop
    and for the specification alike. *)
Lemma equal_sample_disqualifies h i j :
  i < j < len h -> eqb (at_index h j) (at_index h i) = true ->
  ~ not_reached_after h i /\ ~ strictly_dominates h i.
Proof.
  intros Hj Heq. split; intros Hall; specialize (Hall j Hj).
  - apply eqb_geb in Heq. congruence.
  - apply eqb_not_ltb in Heq. congruence.
Qed.

(** A NaN sample with more than two samples from it onwards makes
    [isLossy] answer true, whatever follows. *)
Lemma isLossy_nan_at h i :
  0 <= i -> len h - i > 2 -> at_index h i = NaN -> isLossy h = true.
Proof.
  intros Hi Hseg Hnan. apply isLossy_not_reached.
  exists i. repeat split; [assumption|assumption|].
  intros j Hj. rewrite Hnan. apply geb_nan_r.
Qed.

End ClassifierFacts.

Import Float64 Float64Facts Go Classifier ClassifierFacts.
Local Open Scope Z_scope.

(** C1. The claim reads: for every hit-rate vector [h] of length [L],
    [isLossy h] is true if and only if some index [i] with [L - i > 2]
    has [h[j] < h[i]] for every [j > i]. The code tests the negation of
    [h[j] >= h[i]], which differs from [h[j] < h[i]] on NaN, and
    [normalizeRcvd] produces NaN for a cell with nothing sent and nothing
    received. On the counters sent [0,10,10,10], rcvd [0,10,10,10] the hit
    rates are [NaN, 1, 1, 1]; [isLossy] answers true although no index
    satisfies the predicate of the claim. *)
Theorem isLossy_nan_prefix_reported :
  normalizeRcvd [0; 10; 10; 10] [0; 10; 10; 10]
    = Some [NaN; f1_0; f1_0; f1_0] /\
  isLossy [NaN; f1_0; f1_0; f1_0] = true /\
  ~ lossy_spec [NaN; f1_0; f1_0; f1_0].
Proof.
  split; [vm_compute; reflexivity|].
  split; [vm_compute; reflexivity|].
  intros (i & Hi & Hseg & Hdom).
  unfold len in Hseg; simpl in Hseg.
  assert (Hcases : i = 0 \/ i = 1) by lia.
  destruct Hcases as [-> | ->].
  - specialize (Hdom 1). unfold len in Hdom; simpl in Hdom.
    assert (H : ltb (at_index [NaN; f1_0; f1_0; f1_0] 1)
                    (at_index [NaN; f1_0; f1_0; f1_0] 0) = true)
      by (apply Hdom; lia).
    vm_compute in H. discriminate.
  - specialize (Hdom 2). unfold len in Hdom; simpl in Hdom.
    assert (H : ltb (at_index [NaN; f1_0; f1_0; f1_0] 2)
                    (at_index [NaN; f1_0; f1_0; f1_0] 1) = true)
      by (apply Hdom; lia).
    vm_compute in H. discriminate.
Qed.

(** C2, as stated: [isLossy [0.8, 0.9, 0.1, 0.1]] would be false. It is
    not. *)
Lemma isLossy_example_not_false :
  isLossy [f0_8; f0_9; f0_1; f0_1] <> false.
Proof. vm_compute. discriminate. Qed.

(** C2, amended: [isLossy] applied to [0.8, 0.9, 0.1, 0.1] returns true;
    index 0 is reached by index 1, but index 1 strictly dominates indices
    2 and 3 and three samples are left from index 1 on. *)
Theorem isLossy_example_true :
  isLossy [f0_8; f0_9; f0_1; f0_1] = true /\
  ~ strictly_dominates [f0_8; f0_9; f0_1; f0_1] 0 /\
  strictly_dominates [f0_8; f0_9; f0_1; f0_1] 1 /\
  len [f0_8; f0_9; f0_1; f0_1] - 1 > 2.
Proof.
  split; [vm_compute; reflexivity|].
  split; [|split].
  - intros Hdom. specialize (Hdom 1).
    assert (H : ltb (at_index [f0_8; f0_9; f0_1; f0_1] 1)
                    (at_index [f0_8; f0_9; f0_1; f0_1] 0) = true)
      by (apply Hdom; vm_compute; split; reflexivity).
    vm_compute in H. discriminate.
  - intros j Hj. unfold len in Hj; simpl in Hj.
    assert (Hcases : j = 2 \/ j = 3) by lia.
    destruct Hcases as [-> | ->]; vm_compute; reflexivity.
  - vm_compute. reflexivity.
Qed.

(** ** The stamp *)

Module StampFacts.
Import GoInt GoIntFacts Stamp.
Local Open Scope Z_scope.

Lemma clock24_mod now_ms : clock24 now_ms = now_ms mod 2 ^ 24.
Proof. unfold clock24, u32. rewrite land_ffffff. apply mod32_mod24. Qed.

Lemma clock24_range now_ms : 0 <= clock24 now_ms < 2 ^ 24.
Proof. rewrite clock24_mod. apply Z.mod_pos_bound. lia. Qed.

(** The two fields of the stamp do not overlap. *)
Lemma seqNum_fields ttl now_ms :
  seqNum ttl now_ms
  = Z.lor (Z.shiftl (ttl mod 2 ^ 8) 24) (now_ms mod 2 ^ 24).
Proof.
  unfold seqNum.
  rewrite land_ffffff, clock24_mod, Z.mod_mod by lia.
  rewrite land_ff. unfold u32 at 2. rewrite mod32_mod8.
  rewrite u32_small; [reflexivity|].
  rewrite Z.shiftl_mul_pow2 by lia.
  pose proof (Z.mod_pos_bound ttl (2 ^ 8) ltac:(lia)). lia.
Qed.

Lemma seqNum_high ttl now_ms :
  Z.shiftr (seqNum ttl now_ms) 24 = ttl mod 2 ^ 8.
Proof.
  rewrite seqNum_fields, Z.shiftr_lor.
  rewrite Z.shiftr_shiftl_l by lia. simpl (24 - 24).
  rewrite Z.shiftl_0_r.
  rewrite (Z.shiftr_div_pow2 (now_ms mod 2 ^ 24)) by lia.
  rewrite Z.div_small by (apply Z.mod_pos_bound; lia).
  apply Z.lor_0_r.
Qed.

Lemma seqNum_low ttl now_ms :
  Z.land (seqNum ttl now_ms) 0x00ffffff = now_ms mod 2 ^ 24.
Proof.
  rewrite seqNum_fields, Z.land_lor_distr_l, !land_ffffff.
  rewrite Z.shiftl_mul_pow2 by lia.
  rewrite Z.mod_mul by lia.
  rewrite Z.mod_mod by lia.
  apply Z.lor_0_l.
Qed.

Lemma seqNum_range ttl now_ms : 0 <= seqNum ttl now_ms < 2 ^ 32.
Proof.
  pose proof (seqNum_high ttl now_ms) as Hhi.
  pose proof (seqNum_low ttl now_ms) as Hlo.
  rewrite Z.shiftr_div_pow2 in Hhi by lia.
  rewrite land_ffffff in Hlo.
  pose proof (Z.div_mod (seqNum ttl now_ms) (2 ^ 24) ltac:(lia)) as Hdm.
  pose proof (Z.mod_pos_bound ttl (2 ^ 8) ltac:(lia)).
  pose proof (Z.mod_pos_bound now_ms (2 ^ 24) ltac:(lia)).
  lia.
Qed.

(** Subtracting one from the acknowledgement gives the sequence number
    back, also when the increment wrapped. *)
Lemma ackNum_of_ack_of ttl now_ms :
  ackNum_of (ack_of (seqNum ttl now_ms)) = seqNum ttl now_ms.
Proof.
  unfold ackNum_of, ack_of. apply u32_succ_pred, seqNum_range.
Qed.

Lemma tcp_recover_stamp ttl now_ms :
  tcp_recover (ack_of (seqNum ttl now_ms))
  = (ttl mod 2 ^ 8, now_ms mod 2 ^ 24).
Proof.
  unfold tcp_recover, stamp_ttl, stamp_ts.
  rewrite ackNum_of_ack_of, seqNum_high, seqNum_low. reflexivity.
Qed.

End StampFacts.

(** ** The receivers *)

Module ReceiversFacts.
Import GoInt GoIntFacts Wire Stamp StampFacts Receivers.
Local Open Scope Z_scope.

Section OnePacket.

Variables RST ACK : Z.
Variable af : family.

(** Whatever [TCPReceiver] emits carries a TTL between 1 and [maxTTL];
    the port is the destination port of the segment, unchecked. *)
Lemma tcp_packet_emits targetAddr targetPort maxTTL n tcpHdr from now_ms r :
  tcp_packet RST ACK af targetAddr targetPort maxTTL n tcpHdr from now_ms
    = Some r ->
  1 <= ttl (tcpProbe r) <= maxTTL /\
  srcPort (tcpProbe r) = Destination tcpHdr /\
  stamp_ts (ackNum_of (AckNum tcpHdr)) <= clock24 now_ms.
Proof.
  unfold tcp_packet.
  destruct (n <? ipHdrSize af + tcpHdrSize); [discriminate|].
  destruct (negb (Source tcpHdr =? targetPort)); [discriminate|].
  destruct (negb (Z.land (Flags tcpHdr) RST =? RST)
            && negb (Z.land (Flags tcpHdr) ACK =? ACK)); [discriminate|].
  destruct (negb (String.eqb from targetAddr)); [discriminate|].
  destruct (Z.gtb_spec (stamp_ttl (ackNum_of (AckNum tcpHdr))) maxTTL);
    cbn [orb]; [discriminate|].
  destruct (Z.ltb_spec (stamp_ttl (ackNum_of (AckNum tcpHdr))) 1);
    [discriminate|].
  destruct (Z.gtb_spec (stamp_ts (ackNum_of (AckNum tcpHdr)))
              (clock24 now_ms)); [discriminate|].
  intros [= <-]. cbn [tcpProbe ttl srcPort]. lia.
Qed.

(** A segment stamped late (the recovered time-stamp is above the masked
    clock) is never emitted. *)
Lemma tcp_packet_late targetAddr targetPort maxTTL n tcpHdr from now_ms :
  clock24 now_ms < stamp_ts (ackNum_of (AckNum tcpHdr)) ->
  tcp_packet RST ACK af targetAddr targetPort maxTTL n tcpHdr from now_ms
    = None.
Proof.
  intros Hlate.
  destruct (tcp_packet RST ACK af targetAddr targetPort maxTTL n tcpHdr
              from now_ms) as [r|] eqn:E; [|reflexivity].
  apply tcp_packet_emits in E. lia.
Qed.

(** The answer to a probe of this run, arriving no earlier (on the
    24-bit clock) than it was stamped, is emitted with the TTL and the
    port of the probe. *)
Lemma tcp_packet_answer targetAddr targetPort maxTTL n flagBits port ttl0
    sent_ms now_ms :
  ipHdrSize af + tcpHdrSize <= n ->
  Z.land flagBits RST = RST \/ Z.land flagBits ACK = ACK ->
  1 <= ttl0 <= maxTTL -> ttl0 <= 255 ->
  clock24 sent_ms <= clock24 now_ms ->
  tcp_packet RST ACK af targetAddr targetPort maxTTL n
    {| Source := targetPort; Destination := port; SeqNum := 0;
       AckNum := ack_of (seqNum ttl0 sent_ms); Flags := flagBits |}
    targetAddr now_ms
  = Some {| tcpProbe := {| srcPort := port; ttl := ttl0 |};
            tcpRtt := clock24 now_ms - clock24 sent_ms |}.
Proof.
  intros Hn Hflags Httl H255 Hclock.
  unfold tcp_packet; cbn [Source Destination AckNum Flags].
  destruct (Z.ltb_spec n (ipHdrSize af + tcpHdrSize)); [lia|].
  rewrite Z.eqb_refl; cbn [negb].
  assert (Hf : negb (Z.land flagBits RST =? RST)
               && negb (Z.land flagBits ACK =? ACK) = false).
  { destruct Hflags as [-> | ->]; rewrite Z.eqb_refl; cbn [negb andb];
      [reflexivity|apply andb_false_r]. }
  rewrite Hf, String.eqb_refl; cbn [negb].
  rewrite ackNum_of_ack_of. unfold stamp_ttl, stamp_ts.
  rewrite seqNum_high, seqNum_low, <- clock24_mod.
  rewrite (Z.mod_small ttl0) by lia.
  destruct (Z.gtb_spec ttl0 maxTTL); [lia|].
  destruct (Z.ltb_spec ttl0 1); [lia|]. cbn [orb].
  destruct (Z.gtb_spec (clock24 sent_ms) (clock24 now_ms)); [lia|].
  rewrite u32_small; [reflexivity|].
  pose proof (clock24_range sent_ms). pose proof (clock24_range now_ms). lia.
Qed.

(** [ICMPReceiver] emits every time-exceeded message that is long
    enough, with the high byte of the embedded sequence number as TTL and
    the embedded source port as port, neither of them checked. *)
Lemma icmp_packet_emits n tcpHdr from now_ms :
  outerIPHdrSize af + icmpHdrSize + innerIPHdrSize af + icmpTcpHdrSize <= n ->
  icmp_packet af n (icmpMsgType af) 0 tcpHdr from now_ms
  = Some {| icmpProbe := {| srcPort := Source tcpHdr;
                            ttl := Z.shiftr (SeqNum tcpHdr) 24 |};
            fromAddr := from;
            fromName := EmptyString;
            icmpRtt := u32 (clock24 now_ms
                            - Z.land (SeqNum tcpHdr) 0x00ffffff) |}.
Proof.
  intros Hn. unfold icmp_packet.
  destruct (Z.ltb_spec n (outerIPHdrSize af + icmpHdrSize + innerIPHdrSize af
                          + icmpTcpHdrSize)); [lia|].
  rewrite !Z.eqb_refl. reflexivity.
Qed.

End OnePacket.

End ReceiversFacts.

(** ** The resolver worker *)

Module ResolverFacts.
Import Go Wire Resolver.

Section Worker.

Variable LookupAddr : string -> list string * option string.

Lemma resolve_error resp names e :
  LookupAddr (fromAddr resp) = (names, Some e) ->
  resolve LookupAddr (RespICMP resp)
  = Ok (RespICMP {| icmpProbe := icmpProbe resp; fromAddr := fromAddr resp;
                    fromName := "?"; icmpRtt := icmpRtt resp |}).
Proof. intros H. unfold resolve. rewrite H. reflexivity. Qed.

Lemma resolve_first_name resp name names :
  LookupAddr (fromAddr resp) = (name :: names, None) ->
  resolve LookupAddr (RespICMP resp)
  = Ok (RespICMP {| icmpProbe := icmpProbe resp; fromAddr := fromAddr resp;
                    fromName := name; icmpRtt := icmpRtt resp |}).
Proof. intros H. unfold resolve. rewrite H. reflexivity. Qed.

Lemma resolve_no_name resp :
  LookupAddr (fromAddr resp) = ([], None) ->
  resolve LookupAddr (RespICMP resp) = Panic IndexOutOfRange.
Proof. intros H. unfold resolve. rewrite H. reflexivity. Qed.

Lemma resolve_tcp resp :
  resolve LookupAddr (RespTCP resp) = Ok (RespTCP resp).
Proof. reflexivity. Qed.

End Worker.

End ResolverFacts.

Import GoInt GoIntFacts Wire Stamp StampFacts Receivers ReceiversFacts.
Import Resolver ResolverFacts.

(** C4. For every [ttl] in [1, 255] and every millisecond count
    [now_ms], the sequence number [s] built by the sender has [ttl] in
    its high byte and [now_ms & 0x00FFFFFF], that is [now_ms mod 2^24],
    in its low 24 bits; and from the acknowledgement number [s + 1] the
    TCP receiver recovers exactly that TTL and that time-stamp. *)
Theorem stamp_round_trip ttl now_ms :
  1 <= ttl <= 255 ->
  Z.land (Z.shiftr (seqNum ttl now_ms) 24) 0xFF = ttl /\
  Z.land (seqNum ttl now_ms) 0x00FFFFFF = Z.land now_ms 0x00FFFFFF /\
  tcp_recover (ack_of (seqNum ttl now_ms))
    = (ttl, Z.land now_ms 0x00FFFFFF) /\
  Z.land now_ms 0x00FFFFFF = now_ms mod 2 ^ 24.
Proof.
  intros Httl.
  rewrite seqNum_high, seqNum_low, tcp_recover_stamp, !land_ffffff.
  rewrite land_ff, Z.mod_mod by lia.
  rewrite (Z.mod_small ttl) by lia.
  repeat split; reflexivity.
Qed.

Lemma stamp_round_trip_witness :
  Z.land (Z.shiftr (seqNum 30 1700000000123) 24) 0xFF = 30 /\
  Z.land (seqNum 30 1700000000123) 0x00FFFFFF
    = Z.land 1700000000123 0x00FFFFFF /\
  tcp_recover (ack_of (seqNum 30 1700000000123))
    = (30, Z.land 1700000000123 0x00FFFFFF) /\
  Z.land 1700000000123 0x00FFFFFF = 1700000000123 mod 2 ^ 24.
Proof. apply (stamp_round_trip 30 1700000000123). lia. Defined.

(** C5, as stated: at the rollover both receivers would emit
    [rtt_ms = 4]. The TCP receiver emits nothing, and the ICMP receiver
    emits the 32-bit difference [2 - 0xFFFFFE], which is 4278190084. *)
Lemma rollover_rtt_not_4 :
  tcp_packet RST_bit ACK_bit Ip4 "192.0.2.1" 22 30 40
    {| Source := 22; Destination := 32768; SeqNum := 0;
       AckNum := ack_of (seqNum 3 0x00FFFFFE); Flags := 0x14 |}
    "192.0.2.1" 0x01000002
  = None /\
  icmp_packet Ip4 56 11 0
    {| Source := 32768; Destination := 22;
       SeqNum := seqNum 3 0x00FFFFFE; AckNum := 0; Flags := 0x02 |}
    "198.51.100.7" 0x01000002
  = Some {| icmpProbe := {| srcPort := 32768; ttl := 3 |};
            fromAddr := "198.51.100.7";
            fromName := EmptyString;
            icmpRtt := 4278190084 |} /\
  4278190084 <> 4.
Proof. split; [|split]; [vm_compute; reflexivity ..|discriminate]. Qed.

(** C5, amended: for a probe stamped at [now_ms = 0x00FFFFFE] whose
    response is processed when the clock reads [0x01000002] (2 after
    the 24-bit mask), the TCP receiver discards the response, because the
    recovered time-stamp [0xFFFFFE] is above the masked clock; this holds
    for every TTL, every other header field and every configuration. *)
Theorem tcp_rollover_discarded RST ACK af targetAddr targetPort maxTTL n
    src dst seq flagBits from ttl :
  stamp_ts (ackNum_of (ack_of (seqNum ttl 0x00FFFFFE))) = 0xFFFFFE /\
  clock24 0x01000002 = 2 /\
  tcp_packet RST ACK af targetAddr targetPort maxTTL n
    {| Source := src; Destination := dst; SeqNum := seq;
       AckNum := ack_of (seqNum ttl 0x00FFFFFE); Flags := flagBits |}
    from 0x01000002
  = None.
Proof.
  assert (Hts : stamp_ts (ackNum_of (ack_of (seqNum ttl 0x00FFFFFE)))
                = 0xFFFFFE).
  { rewrite ackNum_of_ack_of. unfold stamp_ts. rewrite seqNum_low.
    reflexivity. }
  split; [exact Hts|]. split; [reflexivity|].
  apply tcp_packet_late. cbn [AckNum]. rewrite Hts.
  vm_compute. reflexivity.
Qed.

(** C10. The claim reads: a resolver worker emits every ICMPResponse it
    consumes, with ["?"] as name when the lookup fails or returns no
    name. When [net.LookupAddr] returns no error and an empty list, the
    worker evaluates [names[0]] and panics; nothing is emitted. *)
Theorem resolve_empty_list_panics :
  resolve (fun _ => ([], None))
    (RespICMP {| icmpProbe := {| srcPort := 32768; ttl := 3 |};
                 fromAddr := "198.51.100.7";
                 fromName := EmptyString;
                 icmpRtt := 12 |})
  = Panic IndexOutOfRange.
Proof. reflexivity. Qed.

(** ** Slices and maps *)

Module GoFacts.
Import GoInt Go.
Local Open Scope Z_scope.

Lemma bind_Ok {A B} (r : result A) (k : A -> result B) b :
  bind r k = Ok b -> exists a, r = Ok a /\ k a = Ok b.
Proof. destruct r as [a|p]; simpl; [eauto|discriminate]. Qed.

Lemma index_Ok {A} (s : list A) i x :
  index s i = Ok x <-> (0 <= i < len s /\ s !! Z.to_nat i = Some x).
Proof.
  unfold index.
  destruct (Z.leb_spec 0 i), (Z.ltb_spec i (len s)); simpl;
    try (split; [discriminate|intros [? _]; lia]).
  destruct (s !! Z.to_nat i) as [y|] eqn:E.
  - split; [intros [= ->]; auto|intros [_ [= ->]]; reflexivity].
  - split; [discriminate|intros [_ [=]]].
Qed.

Lemma index_in_range {A} (s : list A) i :
  0 <= i < len s -> exists x, index s i = Ok x.
Proof.
  intros Hi. unfold len in Hi.
  destruct (s !! Z.to_nat i) as [x|] eqn:E.
  - exists x. apply index_Ok. auto.
  - apply lookup_ge_None in E. lia.
Qed.

(** Indexing panics with an index error only. *)
Lemma index_Panic {A} (s : list A) i p :
  index s i = Panic p -> p = IndexOutOfRange.
Proof.
  unfold index. destruct ((0 <=? i) && (i <? len s)); [|congruence].
  destruct (s !! Z.to_nat i); congruence.
Qed.

Lemma store_Ok {A} (s : list A) i x s' :
  store s i x = Ok s' <-> (0 <= i < len s /\ s' = <[Z.to_nat i := x]> s).
Proof.
  unfold store.
  destruct (Z.leb_spec 0 i), (Z.ltb_spec i (len s)); simpl;
    try (split; [discriminate|intros [? _]; lia]).
  split; [intros [= <-]; auto|intros [_ ->]; reflexivity].
Qed.

Lemma store_Panic {A} (s : list A) i x p :
  store s i x = Panic p -> p = IndexOutOfRange.
Proof.
  unfold store. destruct ((0 <=? i) && (i <? len s)); congruence.
Qed.

Lemma len_insert {A} (s : list A) n x : len (<[n := x]> s) = len s.
Proof. unfold len. rewrite length_insert. reflexivity. Qed.

Lemma index_insert {A} (s : list A) i j x :
  0 <= i < len s -> 0 <= j ->
  index (<[Z.to_nat i := x]> s) j
  = if j =? i then Ok x else index s j.
Proof.
  intros Hi Hj. unfold index. rewrite len_insert.
  destruct (Z.eqb_spec j i) as [->|Hne].
  - destruct (Z.leb_spec 0 i), (Z.ltb_spec i (len s)); try lia. simpl.
    rewrite list_lookup_insert_eq by (unfold len in *; lia). reflexivity.
  - rewrite list_lookup_insert_ne by lia. reflexivity.
Qed.

Lemma index_negative {A} (s : list A) j :
  j < 0 -> index s j = Panic IndexOutOfRange.
Proof.
  intros Hj. unfold index. destruct (Z.leb_spec 0 j); [lia|reflexivity].
Qed.

(** Reading any slot after a successful store. *)
Lemma index_store {A} (s s' : list A) i j x :
  store s i x = Ok s' ->
  index s' j = if j =? i then Ok x else index s j.
Proof.
  intros [Hi ->]%store_Ok.
  destruct (Z.lt_ge_cases j 0) as [Hneg|Hpos].
  - rewrite !index_negative by assumption.
    destruct (Z.eqb_spec j i); [lia|reflexivity].
  - apply index_insert; assumption.
Qed.

Lemma len_store {A} (s s' : list A) i x :
  store s i x = Ok s' -> len s' = len s.
Proof. intros [_ ->]%store_Ok. apply len_insert. Qed.

Lemma row_insert {A} (m : gmap Z (list A)) k s p :
  row (<[k := s]> m) p = if p =? k then s else row m p.
Proof.
  unfold row. destruct (Z.eqb_spec p k) as [->|Hne].
  - rewrite lookup_insert_eq. reflexivity.
  - rewrite lookup_insert_ne by congruence. reflexivity.
Qed.

Lemma store_cell_Panic {A} (m : gmap Z (list A)) k i x p :
  store_cell m k i x = Panic p -> p = IndexOutOfRange.
Proof.
  unfold store_cell.
  destruct (store (row m k) i x) eqn:E; simpl; [discriminate|].
  intros [= <-]. eapply store_Panic, E.
Qed.

(** Reading any cell after a successful write. *)
Lemma cell_store_cell {A} (m m' : gmap Z (list A)) k i x p t :
  store_cell m k i x = Ok m' ->
  cell m' p t = if (p =? k) && (t =? i) then Ok x else cell m p t.
Proof.
  unfold store_cell. intros (s & Hs & [= <-])%bind_Ok.
  unfold cell. rewrite row_insert.
  destruct (Z.eqb_spec p k) as [->|Hne]; simpl; [|reflexivity].
  apply (index_store _ _ _ t) in Hs. exact Hs.
Qed.

Lemma len_row_store_cell {A} (m m' : gmap Z (list A)) k i x p :
  store_cell m k i x = Ok m' -> len (row m' p) = len (row m p).
Proof.
  unfold store_cell. intros (s & Hs & [= <-])%bind_Ok.
  rewrite row_insert.
  destruct (Z.eqb_spec p k) as [->|Hne]; [|reflexivity].
  eapply len_store, Hs.
Qed.

Lemma store_cell_in_range {A} (m m' : gmap Z (list A)) k i x :
  store_cell m k i x = Ok m' -> 0 <= i < len (row m k).
Proof.
  unfold store_cell. intros (s & Hs & _)%bind_Ok.
  apply store_Ok in Hs. tauto.
Qed.

Lemma store_cell_in_range_Ok {A} (m : gmap Z (list A)) k i x :
  0 <= i < len (row m k) -> exists m', store_cell m k i x = Ok m'.
Proof.
  intros Hi. unfold store_cell, store.
  destruct (Z.leb_spec 0 i), (Z.ltb_spec i (len (row m k))); try lia.
  simpl. eauto.
Qed.

Lemma incr_cell_Panic m k i p :
  incr_cell m k i = Panic p -> p = IndexOutOfRange.
Proof.
  unfold incr_cell, cell.
  destruct (index (row m k) i) eqn:E; simpl.
  - apply store_cell_Panic.
  - intros [= <-]. eapply index_Panic, E.
Qed.

(** Reading any cell after a successful increment. *)
Lemma cell_incr_cell m m' k i p t :
  incr_cell m k i = Ok m' ->
  cell m' p t
  = if (p =? k) && (t =? i) then x <- cell m p t ;; Ok (incr x)
    else cell m p t.
Proof.
  unfold incr_cell. intros (x & Hx & Hst)%bind_Ok.
  rewrite (cell_store_cell _ _ _ _ _ p t Hst).
  destruct (Z.eqb_spec p k) as [->|]; [|reflexivity].
  destruct (Z.eqb_spec t i) as [->|]; [|reflexivity].
  simpl. rewrite Hx. reflexivity.
Qed.

Lemma len_row_incr_cell m m' k i p :
  incr_cell m k i = Ok m' -> len (row m' p) = len (row m p).
Proof.
  unfold incr_cell. intros (x & _ & Hst)%bind_Ok.
  eapply len_row_store_cell, Hst.
Qed.

Lemma incr_cell_in_range m m' k i :
  incr_cell m k i = Ok m' -> 0 <= i < len (row m k).
Proof.
  unfold incr_cell. intros (x & _ & Hst)%bind_Ok.
  eapply store_cell_in_range, Hst.
Qed.

Lemma incr_cell_in_range_Ok m k i :
  0 <= i < len (row m k) -> exists m', incr_cell m k i = Ok m'.
Proof.
  intros Hi. unfold incr_cell, cell.
  destruct (index_in_range (row m k) i Hi) as [x ->]. simpl.
  apply store_cell_in_range_Ok, Hi.
Qed.

Lemma slice_to_Ok {A} (s s' : list A) k :
  slice_to s k = Ok s' <-> (0 <= k <= len s /\ s' = take (Z.to_nat k) s).
Proof.
  unfold slice_to.
  destruct (Z.leb_spec 0 k), (Z.leb_spec k (len s)); simpl;
    try (split; [discriminate|intros [? _]; lia]).
  split; [intros [= <-]; auto|intros [_ ->]; reflexivity].
Qed.

Lemma len_replicate {A} n (x : A) : 0 <= n -> len (replicate (Z.to_nat n) x) = n.
Proof. intros Hn. unfold len. rewrite length_replicate. lia. Qed.

End GoFacts.

(** ** The correlator *)

Module CorrelatorFacts.
Import GoInt GoIntFacts Go GoFacts Wire Correlator.
Local Open Scope Z_scope.

Section Main.

Variable flags : Options.

Abbreviation step := (Correlator.step flags).
Abbreviation run := (Correlator.run flags).
Abbreviation init := (Correlator.init flags).

(** *** The counters at start-up *)

Lemma foldl_add_rows ports : forall c p,
  let c' := foldl (add_rows flags) c ports in
  let n := Z.to_nat (maxTTL flags) in
  (Sent c' !! p
   = if decide (p ∈ ports) then Some (replicate n 0) else Sent c !! p) /\
  (Rcvd c' !! p
   = if decide (p ∈ ports) then Some (replicate n 0) else Rcvd c !! p) /\
  (Paths c' !! p
   = if decide (p ∈ ports) then Some (replicate n "?"%string)
     else Paths c !! p).
Proof.
  induction ports as [|a ports IH]; intros c p; simpl.
  - auto.
  - destruct (IH (add_rows flags c a) p) as (HS & HR & HP).
    rewrite HS, HR, HP. clear IH HS HR HP.
    destruct (decide (p ∈ ports)) as [Hin|Hnin].
    + rewrite !decide_True by (right; assumption). auto.
    + destruct (decide (p = a)) as [->|Hne].
      * rewrite !decide_True by left. simpl.
        rewrite !lookup_insert_eq. auto.
      * rewrite !decide_False by (intros [?|?]%elem_of_cons; contradiction).
        simpl. rewrite !lookup_insert_ne by congruence. auto.
Qed.

(** Every port of the sweep has its three rows, of length [maxTTL]. *)
Lemma init_rows_swept p :
  swept flags p ->
  row (Sent (init_counters flags)) p = replicate (Z.to_nat (maxTTL flags)) 0 /\
  row (Rcvd (init_counters flags)) p = replicate (Z.to_nat (maxTTL flags)) 0 /\
  row (Paths (init_counters flags)) p
    = replicate (Z.to_nat (maxTTL flags)) "?"%string.
Proof.
  intros Hp. unfold row, init_counters.
  destruct (foldl_add_rows
              (seqZ (baseSrcPort flags) (maxSrcPorts flags)) newReport p)
    as (HS & HR & HP).
  simpl in HS, HR, HP. rewrite HS, HR, HP.
  rewrite !decide_True by (apply elem_of_seqZ; exact Hp). auto.
Qed.

(** No other port has a row. *)
Lemma init_rows_outside p :
  ~ swept flags p ->
  row (Sent (init_counters flags)) p = [] /\
  row (Rcvd (init_counters flags)) p = [] /\
  row (Paths (init_counters flags)) p = [].
Proof.
  intros Hp. unfold row, init_counters.
  destruct (foldl_add_rows
              (seqZ (baseSrcPort flags) (maxSrcPorts flags)) newReport p)
    as (HS & HR & HP).
  simpl in HS, HR, HP. rewrite HS, HR, HP.
  rewrite !decide_False by (rewrite elem_of_seqZ; exact Hp).
  simpl. rewrite !lookup_empty. auto.
Qed.

Lemma init_cells p t :
  swept flags p -> 0 <= t < maxTTL flags ->
  cell (Sent (counters init)) p t = Ok 0 /\
  cell (Rcvd (counters init)) p t = Ok 0 /\
  cell (Paths (counters init)) p t = Ok "?"%string.
Proof.
  intros Hp Ht. destruct (init_rows_swept p Hp) as (HS & HR & HP).
  unfold cell. simpl. rewrite HS, HR, HP.
  repeat split; apply index_Ok; rewrite len_replicate by lia;
    (split; [lia|]); apply lookup_replicate_2; lia.
Qed.

(** No row is longer than [maxTTL]. *)
Lemma init_len_rows p :
  len (row (Sent (counters init)) p) <= Z.max 0 (maxTTL flags) /\
  len (row (Rcvd (counters init)) p) <= Z.max 0 (maxTTL flags) /\
  len (row (Paths (counters init)) p) <= Z.max 0 (maxTTL flags).
Proof.
  assert (Hrep : forall A (x : A),
             len (replicate (Z.to_nat (maxTTL flags)) x)
             <= Z.max 0 (maxTTL flags)).
  { intros A x. unfold len. rewrite length_replicate. lia. }
  destruct (decide (swept flags p)) as [Hp|Hp]; simpl.
  - destruct (init_rows_swept p Hp) as (-> & -> & ->). auto.
  - destruct (init_rows_outside p Hp) as (-> & -> & ->).
    unfold len; simpl. lia.
Qed.

(** *** One step *)

(** A step changes the length of no row. *)
Lemma step_len_rows st ev st' p :
  step st ev = Ok st' ->
  len (row (Sent (counters st')) p) = len (row (Sent (counters st)) p) /\
  len (row (Rcvd (counters st')) p) = len (row (Rcvd (counters st)) p) /\
  len (row (Paths (counters st')) p) = len (row (Paths (counters st)) p).
Proof.
  destruct ev as [probe|[resp|resp]]; simpl.
  - unfold on_probe. intros (sent & Hs & [= <-])%bind_Ok. simpl.
    rewrite (len_row_incr_cell _ _ _ _ p Hs). auto.
  - unfold on_icmp.
    intros (rcvd & Hr & (cur & _ & (paths & Hp & [= <-])%bind_Ok)%bind_Ok)%bind_Ok.
    simpl. rewrite (len_row_incr_cell _ _ _ _ p Hr).
    rewrite (len_row_store_cell _ _ _ _ _ p Hp). auto.
  - unfold on_tcp.
    intros (done & _ & (rcvd & Hr & (paths & Hp & [= <-])%bind_Ok)%bind_Ok)%bind_Ok.
    simpl. rewrite (len_row_incr_cell _ _ _ _ p Hr).
    rewrite (len_row_store_cell _ _ _ _ _ p Hp). auto.
Qed.

(** The probe or response a step processed addressed an existing
    cell. *)
Lemma step_in_range st ev st' :
  step st ev = Ok st' ->
  match ev with
  | EvProbe probe =>
      0 <= ttl probe - 1 < len (row (Sent (counters st)) (srcPort probe))
  | EvResponse val =>
      0 <= ttl (resp_probe val) - 1
        < len (row (Rcvd (counters st)) (srcPort (resp_probe val)))
  end.
Proof.
  destruct ev as [probe|[resp|resp]]; simpl.
  - unfold on_probe. intros (sent & Hs & _)%bind_Ok.
    eapply incr_cell_in_range, Hs.
  - unfold on_icmp. intros (rcvd & Hr & _)%bind_Ok.
    eapply incr_cell_in_range, Hr.
  - unfold on_tcp. intros (done & _ & (rcvd & Hr & _)%bind_Ok)%bind_Ok.
    eapply incr_cell_in_range, Hr.
Qed.

(** The effect of a step on the two counters of a cell. *)
Lemma step_cells st ev st' p t :
  step st ev = Ok st' ->
  cell (Sent (counters st')) p t
    = bump (hits_sent p t ev) (cell (Sent (counters st)) p t) /\
  cell (Rcvd (counters st')) p t
    = bump (hits_rcvd p t ev) (cell (Rcvd (counters st)) p t).
Proof.
  destruct ev as [probe|[resp|resp]]; simpl.
  - unfold on_probe. intros (sent & Hs & [= <-])%bind_Ok. simpl.
    rewrite (cell_incr_cell _ _ _ _ p t Hs). auto.
  - unfold on_icmp.
    intros (rcvd & Hr & (cur & _ & (paths & Hp & [= <-])%bind_Ok)%bind_Ok)%bind_Ok.
    simpl. rewrite (cell_incr_cell _ _ _ _ p t Hr). auto.
  - unfold on_tcp.
    intros (done & _ & (rcvd & Hr & (paths & Hp & [= <-])%bind_Ok)%bind_Ok)%bind_Ok.
    simpl. rewrite (cell_incr_cell _ _ _ _ p t Hr). auto.
Qed.


(** *** Runs *)

Lemma run_app evs1 : forall st evs2,
  run st (evs1 ++ evs2) = (st' <- run st evs1 ;; run st' evs2).
Proof.
  induction evs1 as [|ev evs1 IH]; intros st evs2; simpl; [reflexivity|].
  destruct (step st ev) as [st1|p]; simpl; [apply IH|reflexivity].
Qed.

(** A run that succeeds succeeds on every prefix. *)
Lemma run_prefix st evs1 evs2 st' :
  run st (evs1 ++ evs2) = Ok st' -> exists st1, run st evs1 = Ok st1.
Proof.
  rewrite run_app. intros (st1 & H1 & _)%bind_Ok. eauto.
Qed.

Lemma run_len_rows evs : forall st st' p,
  run st evs = Ok st' ->
  len (row (Sent (counters st')) p) = len (row (Sent (counters st)) p) /\
  len (row (Rcvd (counters st')) p) = len (row (Rcvd (counters st)) p) /\
  len (row (Paths (counters st')) p) = len (row (Paths (counters st)) p).
Proof.
  induction evs as [|ev evs IH]; intros st st' p; simpl.
  - intros [= <-]. auto.
  - intros (st1 & H1 & Hrun)%bind_Ok.
    destruct (IH _ _ p Hrun) as (-> & -> & ->).
    apply (step_len_rows _ _ _ p H1).
Qed.

Lemma count_probes_cons p t ev evs :
  count_probes p t (ev :: evs)
  = (if hits_sent p t ev then 1 else 0) + count_probes p t evs.
Proof.
  unfold count_probes. rewrite filter_cons.
  destruct (hits_sent p t ev).
  - rewrite decide_True by reflexivity. unfold len. simpl length. lia.
  - rewrite decide_False by discriminate. lia.
Qed.

Lemma count_responses_cons p t ev evs :
  count_responses p t (ev :: evs)
  = (if hits_rcvd p t ev then 1 else 0) + count_responses p t evs.
Proof.
  unfold count_responses. rewrite filter_cons.
  destruct (hits_rcvd p t ev).
  - rewrite decide_True by reflexivity. unfold len. simpl length. lia.
  - rewrite decide_False by discriminate. lia.
Qed.

Lemma count_probes_range p t evs : 0 <= count_probes p t evs <= len evs.
Proof.
  unfold count_probes, len.
  pose proof (length_filter (fun ev => hits_sent p t ev = true) evs). lia.
Qed.

Lemma count_responses_range p t evs :
  0 <= count_responses p t evs <= len evs.
Proof.
  unfold count_responses, len.
  pose proof (length_filter (fun ev => hits_rcvd p t ev = true) evs). lia.
Qed.

Lemma bump_small hit x :
  0 <= x < max_int -> bump hit (Ok x) = Ok (x + if hit then 1 else 0).
Proof.
  intros Hx. unfold bump. destruct hit; simpl.
  - rewrite incr_small by assumption. reflexivity.
  - f_equal. lia.
Qed.

(** Each counter grows by the number of events that hit its cell, as
    long as the [int] does not wrap. *)
Lemma run_counts evs : forall st st' p t s0 r0,
  run st evs = Ok st' ->
  cell (Sent (counters st)) p t = Ok s0 ->
  cell (Rcvd (counters st)) p t = Ok r0 ->
  0 <= s0 -> 0 <= r0 ->
  s0 + len evs <= max_int -> r0 + len evs <= max_int ->
  cell (Sent (counters st')) p t = Ok (s0 + count_probes p t evs) /\
  cell (Rcvd (counters st')) p t = Ok (r0 + count_responses p t evs).
Proof.
  induction evs as [|ev evs IH]; intros st st' p t s0 r0; simpl.
  - intros [= <-] HS HR _ _ _ _. rewrite HS, HR.
    unfold count_probes, count_responses, len; simpl.
    split; f_equal; lia.
  - intros (st1 & H1 & Hrun)%bind_Ok HS HR Hs0 Hr0 Hsmax Hrmax.
    assert (Hlen : len (ev :: evs) = 1 + len evs)
      by (unfold len; simpl length; lia).
    rewrite Hlen in Hsmax, Hrmax.
    pose proof (count_probes_range p t evs).
    pose proof (count_responses_range p t evs).
    destruct (step_cells _ _ _ p t H1) as [HS1 HR1].
    rewrite HS in HS1. rewrite HR in HR1.
    rewrite bump_small in HS1 by lia.
    rewrite bump_small in HR1 by lia.
    rewrite count_probes_cons, count_responses_cons.
    destruct (IH _ _ p t _ _ Hrun HS1 HR1) as [-> ->];
      try (destruct (hits_sent p t ev), (hits_rcvd p t ev); lia).
    split; f_equal; lia.
Qed.

(** The TTL of every response a successful run processed is between 1
    and [maxTTL]. *)
Lemma run_tcp_ttls evs : forall st st',
  (forall p, len (row (Rcvd (counters st)) p) <= Z.max 0 (maxTTL flags)) ->
  run st evs = Ok st' ->
  Forall (fun k => 1 <= k <= maxTTL flags) (tcp_ttls evs).
Proof.
  induction evs as [|ev evs IH]; intros st st' Hlen; simpl.
  - intros _. constructor.
  - intros (st1 & H1 & Hrun)%bind_Ok.
    assert (Hlen1 : forall p,
               len (row (Rcvd (counters st1)) p) <= Z.max 0 (maxTTL flags)).
    { intros p. destruct (step_len_rows _ _ _ p H1) as (_ & -> & _).
      apply Hlen. }
    specialize (IH _ _ Hlen1 Hrun).
    destruct ev as [probe|[resp|resp]]; try exact IH.
    constructor; [|exact IH].
    apply step_in_range in H1. simpl in H1.
    specialize (Hlen (srcPort (tcpProbe resp))). lia.
Qed.

(** *** The stop channels *)

Lemma close_Ok c c' : close c = Ok c' -> c = ChanOpen /\ c' = ChanClosed.
Proof. destruct c; simpl; intros [=]; auto. Qed.

(** The loop never closes a channel twice, provided none of the slots
    ahead of it is closed already. *)
Lemma close_loop_no_double fuel : forall done i last,
  (forall j, i <= j < last -> index done j <> Ok ChanClosed) ->
  close_loop done i last fuel <> Panic CloseOfClosedChannel.
Proof.
  induction fuel as [|fuel IH]; intros done i last Hopen; simpl;
    [discriminate|].
  destruct (Z.ltb_spec i last) as [Hlt|Hge]; [|discriminate].
  destruct (index done i) as [c|p] eqn:Hidx; simpl.
  - destruct c; simpl; [discriminate| |].
    + destruct (store done i ChanClosed) as [done1|p] eqn:Hst; simpl.
      * apply IH. intros j Hj.
        rewrite (index_store _ _ _ j _ Hst).
        destruct (Z.eqb_spec j i); [lia|]. apply Hopen. lia.
      * apply store_Panic in Hst. subst p. discriminate.
    + exfalso. apply (Hopen i); [lia|assumption].
  - apply index_Panic in Hidx. subst p. discriminate.
Qed.

(** When the loop completes, the slots it visited were open and are now
    closed; no other slot changed. *)
Lemma close_loop_Ok fuel : forall done i last done',
  last - i <= Z.of_nat fuel ->
  close_loop done i last fuel = Ok done' ->
  (forall j, i <= j < last -> index done j = Ok ChanOpen) /\
  (forall j, index done' j
             = if (i <=? j) && (j <? last) then Ok ChanClosed
               else index done j).
Proof.
  induction fuel as [|fuel IH]; intros done i last done' Hfuel; simpl.
  - intros [= <-]. split; [intros j Hj; lia|].
    intros j. destruct (Z.leb_spec i j), (Z.ltb_spec j last);
      simpl; try reflexivity; lia.
  - destruct (Z.ltb_spec i last) as [Hlt|Hge].
    + intros (c & Hidx & (c' & Hc & (done1 & Hst & Hloop)%bind_Ok)%bind_Ok)%bind_Ok.
      apply close_Ok in Hc as [-> ->].
      destruct (IH done1 (i + 1) last done') as [Hopen Hafter];
        [lia|exact Hloop|].
      split.
      * intros j Hj. destruct (Z.eq_dec j i) as [->|Hne]; [assumption|].
        specialize (Hopen j ltac:(lia)).
        rewrite (index_store _ _ _ j _ Hst) in Hopen.
        destruct (Z.eqb_spec j i); [lia|assumption].
      * intros j. rewrite Hafter, (index_store _ _ _ j _ Hst).
        destruct (Z.eqb_spec j i) as [->|Hne].
        -- destruct (Z.leb_spec (i + 1) i), (Z.ltb_spec i last),
             (Z.leb_spec i i); simpl; try reflexivity; lia.
        -- destruct (Z.leb_spec (i + 1) j), (Z.leb_spec i j),
             (Z.ltb_spec j last); simpl; try reflexivity; lia.
    + intros [= <-]. split; [intros j Hj; lia|].
      intros j. destruct (Z.leb_spec i j), (Z.ltb_spec j last);
        simpl; try reflexivity; lia.
Qed.

(** The loop completes when every slot it visits is open. *)
Lemma close_loop_total fuel : forall done i last,
  (forall j, i <= j < last -> index done j = Ok ChanOpen) ->
  exists done', close_loop done i last fuel = Ok done'.
Proof.
  induction fuel as [|fuel IH]; intros done i last Hopen; simpl; [eauto|].
  destruct (Z.ltb_spec i last) as [Hlt|Hge]; [|eauto].
  pose proof (Hopen i ltac:(lia)) as Hidx. rewrite Hidx. simpl.
  apply index_Ok in Hidx as [Hrange _].
  destruct (store done i ChanClosed) as [done1|p] eqn:Hst.
  - simpl. apply IH. intros j Hj.
    rewrite (index_store _ _ _ j _ Hst).
    destruct (Z.eqb_spec j i); [lia|]. apply Hopen. lia.
  - unfold store in Hst.
    destruct (Z.leb_spec 0 i), (Z.ltb_spec i (len done)); try lia.
    discriminate.
Qed.

(** A response at or above the watermark closes nothing. *)
Lemma close_senders_noop done k last :
  last <= k -> close_senders done k last = Ok done.
Proof.
  intros Hle. unfold close_senders.
  replace (Z.to_nat (last - k)) with O by lia. reflexivity.
Qed.

Lemma chan_at_below last j : j < last -> chan_at flags last j <> ChanClosed.
Proof.
  intros Hj. unfold chan_at.
  destruct (j <? minTTL flags - 1); [discriminate|].
  destruct (Z.leb_spec last j); [lia|discriminate].
Qed.

Lemma watermark_inv_not_closed st j :
  watermark_inv flags st -> j < lastClosed st ->
  index (senderDone st) j <> Ok ChanClosed.
Proof.
  intros [_ Hex] Hj. rewrite Hex.
  destruct ((0 <=? j) && (j <? maxTTL flags)); [|discriminate].
  intros [= H]. eapply chan_at_below; eassumption.
Qed.

Lemma len_init_senderDone :
  len (init_senderDone flags) = Z.max 0 (maxTTL flags).
Proof.
  unfold len, init_senderDone. rewrite length_fmap, length_seqZ. lia.
Qed.

Lemma watermark_inv_init : watermark_inv flags init.
Proof.
  split; [simpl; lia|]. intros j. simpl.
  destruct (Z.leb_spec 0 j) as [H0|H0], (Z.ltb_spec j (maxTTL flags)) as [H1|H1];
    simpl.
  - apply index_Ok. rewrite len_init_senderDone. split; [lia|].
    unfold init_senderDone. rewrite list_lookup_fmap.
    rewrite lookup_seqZ_lt by lia. simpl.
    unfold chan_at. rewrite Z2Nat.id by lia. rewrite Z.add_0_l.
    destruct (j <? minTTL flags - 1); [reflexivity|].
    destruct (Z.leb_spec (maxTTL flags) j); [lia|reflexivity].
  - unfold index. rewrite len_init_senderDone.
    destruct (Z.leb_spec 0 j), (Z.ltb_spec j (Z.max 0 (maxTTL flags)));
      try lia; reflexivity.
  - apply index_negative. lia.
  - apply index_negative. lia.
Qed.

(** The watermark after a step. *)
Lemma step_lastClosed st ev st' :
  step st ev = Ok st' ->
  lastClosed st'
  = match ev with
    | EvResponse (RespTCP resp) => Z.min (ttl (tcpProbe resp)) (lastClosed st)
    | _ => lastClosed st
    end.
Proof.
  destruct ev as [probe|[resp|resp]]; simpl.
  - unfold on_probe. intros (sent & _ & [= <-])%bind_Ok. reflexivity.
  - unfold on_icmp.
    intros (rcvd & _ & (cur & _ & (paths & _ & [= <-])%bind_Ok)%bind_Ok)%bind_Ok.
    reflexivity.
  - unfold on_tcp.
    intros (done & _ & (rcvd & _ & (paths & _ & [= <-])%bind_Ok)%bind_Ok)%bind_Ok.
    simpl. destruct (Z.ltb_spec (ttl (tcpProbe resp)) (lastClosed st)); lia.
Qed.

(** The stop channels after a step. *)
Lemma step_senderDone st ev st' :
  step st ev = Ok st' ->
  match ev with
  | EvResponse (RespTCP resp) =>
      close_senders (senderDone st) (ttl (tcpProbe resp)) (lastClosed st)
      = Ok (senderDone st')
  | _ => senderDone st' = senderDone st
  end.
Proof.
  destruct ev as [probe|[resp|resp]]; simpl.
  - unfold on_probe. intros (sent & _ & [= <-])%bind_Ok. reflexivity.
  - unfold on_icmp.
    intros (rcvd & _ & (cur & _ & (paths & _ & [= <-])%bind_Ok)%bind_Ok)%bind_Ok.
    reflexivity.
  - unfold on_tcp.
    intros (done & Hd & (rcvd & _ & (paths & _ & [= <-])%bind_Ok)%bind_Ok)%bind_Ok.
    simpl. exact Hd.
Qed.

Lemma step_watermark_inv st ev st' :
  watermark_inv flags st -> step st ev = Ok st' -> watermark_inv flags st'.
Proof.
  intros [Hmax Hex] Hstep.
  pose proof (step_lastClosed _ _ _ Hstep) as Hlast.
  pose proof (step_senderDone _ _ _ Hstep) as Hdone.
  destruct ev as [probe|[resp|resp]];
    try (split; [rewrite Hlast; exact Hmax|rewrite Hlast, Hdone; exact Hex]).
  set (k := ttl (tcpProbe resp)) in *.
  split; [rewrite Hlast; lia|]. intros j. rewrite Hlast.
  destruct (Z.le_gt_cases (lastClosed st) k) as [Hge|Hlt].
  - rewrite close_senders_noop in Hdone by assumption.
    injection Hdone as <-. rewrite Z.min_r by lia. apply Hex.
  - rewrite Z.min_l by lia.
    unfold close_senders in Hdone.
    apply close_loop_Ok in Hdone as [Hopen Hafter]; [|lia].
    rewrite Hafter, Hex.
    destruct (Z.leb_spec k j) as [Hkj|Hkj], (Z.ltb_spec j (lastClosed st)) as [Hjl|Hjl];
      simpl.
    + specialize (Hopen j ltac:(lia)). rewrite Hex in Hopen.
      destruct ((0 <=? j) && (j <? maxTTL flags)); [|discriminate].
      f_equal. injection Hopen as Hopen. unfold chan_at in *.
      destruct (j <? minTTL flags - 1); [discriminate|].
      destruct (Z.leb_spec k j); [reflexivity|lia].
    + destruct ((0 <=? j) && (j <? maxTTL flags)); [|reflexivity].
      f_equal. unfold chan_at.
      destruct (j <? minTTL flags - 1); [reflexivity|].
      destruct (Z.leb_spec (lastClosed st) j), (Z.leb_spec k j);
        try reflexivity; lia.
    + destruct ((0 <=? j) && (j <? maxTTL flags)); [|reflexivity].
      f_equal. unfold chan_at.
      destruct (j <? minTTL flags - 1); [reflexivity|].
      destruct (Z.leb_spec (lastClosed st) j), (Z.leb_spec k j);
        try reflexivity; lia.
    + lia.
Qed.

Lemma run_watermark_inv evs : forall st st',
  watermark_inv flags st -> run st evs = Ok st' -> watermark_inv flags st'.
Proof.
  induction evs as [|ev evs IH]; intros st st' Hinv; simpl.
  - intros [= <-]. exact Hinv.
  - intros (st1 & H1 & Hrun)%bind_Ok.
    eapply IH; [|exact Hrun]. eapply step_watermark_inv; eassumption.
Qed.

(** No step closes a closed channel. *)
Lemma step_no_double st ev :
  watermark_inv flags st -> step st ev <> Panic CloseOfClosedChannel.
Proof.
  intros Hinv. destruct ev as [probe|[resp|resp]]; simpl.
  - unfold on_probe.
    destruct (incr_cell _ _ _) as [sent|p] eqn:E; simpl; [discriminate|].
    apply incr_cell_Panic in E. subst p. discriminate.
  - unfold on_icmp.
    destruct (incr_cell _ _ _) as [rcvd|p] eqn:E; simpl;
      [|apply incr_cell_Panic in E; subst p; discriminate].
    destruct (cell _ _ _) as [cur|p] eqn:E1; simpl;
      [|apply index_Panic in E1; subst p; discriminate].
    destruct (store_cell _ _ _ _) as [paths|p] eqn:E2; simpl;
      [discriminate|].
    apply store_cell_Panic in E2. subst p. discriminate.
  - unfold on_tcp.
    destruct (close_senders _ _ _) as [done|p] eqn:E0; simpl.
    + destruct (incr_cell _ _ _) as [rcvd|p] eqn:E; simpl;
        [|apply incr_cell_Panic in E; subst p; discriminate].
      destruct (store_cell _ _ _ _) as [paths|p] eqn:E2; simpl;
        [discriminate|].
      apply store_cell_Panic in E2. subst p. discriminate.
    + intros [= ->]. revert E0. apply close_loop_no_double.
      intros j Hj. apply watermark_inv_not_closed; [assumption|lia].
Qed.

Lemma run_no_double evs : forall st,
  watermark_inv flags st -> run st evs <> Panic CloseOfClosedChannel.
Proof.
  induction evs as [|ev evs IH]; intros st Hinv; simpl; [discriminate|].
  destruct (step st ev) as [st1|p] eqn:H1; simpl.
  - apply IH. eapply step_watermark_inv; eassumption.
  - intros [= ->]. eapply step_no_double; eassumption.
Qed.

(** *** The watermark as a minimum *)

Lemma min_list_min a d l :
  min_list (Z.min a d) l = Z.min a (min_list d l).
Proof.
  unfold min_list. induction l as [|x l IH]; simpl; [reflexivity|].
  rewrite IH. lia.
Qed.

Lemma min_list_le d l : min_list d l <= d.
Proof. unfold min_list. induction l as [|x l IH]; simpl; lia. Qed.

Lemma min_list_lower d l :
  Forall (fun k => min_list d l <= k) l.
Proof.
  unfold min_list. induction l as [|x l IH]; simpl; constructor; [lia|].
  eapply Forall_impl; [exact IH|]. simpl. intros k Hk. lia.
Qed.

Lemma min_list_elem d l :
  l <> [] -> Forall (fun k => k <= d) l -> min_list d l ∈ l.
Proof.
  unfold min_list. induction l as [|x l IH]; [congruence|].
  intros _ Hall. apply Forall_cons in Hall as [Hx Hall]. simpl.
  destruct l as [|y l].
  - simpl. rewrite Z.min_l by lia. left.
  - specialize (IH ltac:(discriminate) Hall).
    destruct (Z.min_spec x (foldr Z.min d (y :: l))) as [[_ ->]|[_ ->]];
      [left|right; exact IH].
Qed.

Lemma min_list_lt d l t :
  min_list d l < t <-> d < t \/ Exists (fun k => k < t) l.
Proof.
  unfold min_list. induction l as [|x l IH]; simpl.
  - rewrite Exists_nil. tauto.
  - rewrite Exists_cons, Z.min_lt_iff, IH. tauto.
Qed.

Lemma Forall_ge_not_Exists_lt t (l : list Z) :
  Forall (fun k => t <= k) l <-> ~ Exists (fun k => k < t) l.
Proof.
  induction l as [|k l IH].
  - split; [intros _ Hex; inversion Hex|constructor].
  - rewrite Forall_cons, Exists_cons, IH.
    assert (Hdec : k < t \/ t <= k) by lia.
    assert (Hexcl : k < t -> t <= k -> False) by lia.
    tauto.
Qed.

Lemma run_lastClosed evs : forall st st',
  run st evs = Ok st' ->
  lastClosed st' = min_list (lastClosed st) (tcp_ttls evs).
Proof.
  induction evs as [|ev evs IH]; intros st st'; simpl.
  - intros [= <-]. reflexivity.
  - intros (st1 & H1 & Hrun)%bind_Ok.
    rewrite (IH _ _ Hrun), (step_lastClosed _ _ _ H1).
    destruct ev as [probe|[resp|resp]]; try reflexivity.
    simpl. rewrite min_list_min. reflexivity.
Qed.

(** *** Runs on events of the sweep complete *)

Lemma rows_inv_init : rows_inv flags init.
Proof.
  intros p Hp. destruct (init_rows_swept p Hp) as (HS & HR & HP).
  simpl. rewrite HS, HR, HP. unfold len. rewrite !length_replicate. lia.
Qed.

Lemma step_rows_inv st ev st' :
  rows_inv flags st -> step st ev = Ok st' -> rows_inv flags st'.
Proof.
  intros Hinv Hstep p Hp.
  destruct (step_len_rows _ _ _ p Hstep) as (-> & -> & ->).
  apply Hinv, Hp.
Qed.

Lemma step_total st ev :
  watermark_inv flags st -> rows_inv flags st -> valid_event flags ev ->
  exists st', step st ev = Ok st'.
Proof.
  intros [Hmax Hex] Hrows Hvalid.
  destruct ev as [probe|[resp|resp]]; simpl in *.
  - destruct Hvalid as [Hp Ht]. destruct (Hrows _ Hp) as (HS & _ & _).
    unfold on_probe.
    destruct (incr_cell_in_range_Ok (Sent (counters st)) (srcPort probe)
                (ttl probe - 1)) as [sent ->]; [lia|].
    simpl. eauto.
  - destruct Hvalid as [Hp Ht]. destruct (Hrows _ Hp) as (_ & HR & HP).
    unfold on_icmp.
    destruct (incr_cell_in_range_Ok (Rcvd (counters st))
                (srcPort (icmpProbe resp)) (ttl (icmpProbe resp) - 1))
      as [rcvd ->]; [lia|]. simpl.
    unfold cell.
    destruct (index_in_range (row (Paths (counters st))
                (srcPort (icmpProbe resp))) (ttl (icmpProbe resp) - 1))
      as [cur ->]; [lia|]. simpl.
    destruct (store_cell_in_range_Ok (Paths (counters st))
                (srcPort (icmpProbe resp)) (ttl (icmpProbe resp) - 1)
                (fromName resp)) as [paths ->]; [lia|].
    simpl. eauto.
  - destruct Hvalid as [[Hp Ht] Hmin].
    destruct (Hrows _ Hp) as (_ & HR & HP).
    unfold on_tcp.
    destruct (close_loop_total
                (Z.to_nat (lastClosed st - ttl (tcpProbe resp)))
                (senderDone st) (ttl (tcpProbe resp)) (lastClosed st))
      as [done Hdone].
    { intros j Hj. rewrite Hex.
      destruct (Z.leb_spec 0 j), (Z.ltb_spec j (maxTTL flags)); try lia.
      simpl. f_equal. unfold chan_at.
      destruct (Z.ltb_spec j (minTTL flags - 1)); [lia|].
      destruct (Z.leb_spec (lastClosed st) j); [lia|reflexivity]. }
    unfold close_senders. rewrite Hdone. simpl.
    destruct (incr_cell_in_range_Ok (Rcvd (counters st))
                (srcPort (tcpProbe resp)) (ttl (tcpProbe resp) - 1))
      as [rcvd ->]; [lia|]. simpl.
    destruct (store_cell_in_range_Ok (Paths (counters st))
                (srcPort (tcpProbe resp)) (ttl (tcpProbe resp) - 1)
                (target flags)) as [paths ->]; [lia|].
    simpl. eauto.
Qed.

Lemma run_total evs : forall st,
  watermark_inv flags st -> rows_inv flags st ->
  Forall (valid_event flags) evs ->
  exists st', run st evs = Ok st'.
Proof.
  induction evs as [|ev evs IH]; intros st Hw Hr Hvalid; simpl; [eauto|].
  apply Forall_cons in Hvalid as [Hev Hvalid].
  destruct (step_total st ev Hw Hr Hev) as [st1 H1]. rewrite H1. simpl.
  apply IH; [eapply step_watermark_inv|eapply step_rows_inv|]; eassumption.
Qed.

(** *** Truncation *)

Lemma truncate_row_Paths c port hopVector c' :
  truncate_row flags c port hopVector = Ok c' -> Paths c' = Paths c.
Proof.
  unfold truncate_row. destruct (scan_target flags hopVector 0) as [i|].
  - intros (sent & _ & (rcvd & _ & [= <-])%bind_Ok)%bind_Ok. reflexivity.
  - intros [= <-]. reflexivity.
Qed.

(** The truncation pass leaves every path row as it was. *)
Lemma truncate_rows_Paths rows : forall c c',
  truncate_rows flags c rows = Ok c' -> Paths c' = Paths c.
Proof.
  induction rows as [|[port hopVector] rows IH]; intros c c'; simpl.
  - intros [= <-]. reflexivity.
  - intros (c1 & H1 & Hrest)%bind_Ok.
    rewrite (IH _ _ Hrest). eapply truncate_row_Paths, H1.
Qed.

Lemma truncate_Paths c c' :
  truncate flags c = Ok c' -> Paths c' = Paths c.
Proof. apply truncate_rows_Paths. Qed.

(** [scan_target] returns the first index holding the target name, as
    long as it is below [maxTTL - 1]. *)
Lemma scan_target_Some hopVector : forall i0 i,
  scan_target flags hopVector i0 = Some i ->
  i0 <= i < i0 + len hopVector /\
  i < maxTTL flags - 1 /\
  hopVector !! Z.to_nat (i - i0) = Some (target flags) /\
  (forall j, i0 <= j < i ->
             hopVector !! Z.to_nat (j - i0) <> Some (target flags)).
Proof.
  induction hopVector as [|hop rest IH]; intros i0 i; simpl; [discriminate|].
  assert (Hlen : len (hop :: rest) = 1 + len rest)
    by (unfold len; simpl length; lia).
  rewrite Hlen. pose proof (Nat2Z.is_nonneg (length rest)) as Hnn.
  fold (len rest) in Hnn.
  destruct (String.eqb_spec hop (target flags)) as [Heq|Hne];
    destruct (Z.ltb_spec i0 (maxTTL flags - 1)) as [Hlt|Hge]; simpl.
  - intros [= <-]. rewrite Z.sub_diag. simpl.
    split; [lia|]. split; [lia|]. split; [congruence|].
    intros j Hj. lia.
  - intros (Hi & Hmax & _ & _)%IH. lia.
  - intros (Hi & Hmax & Hat & Hfirst)%IH.
    split; [lia|]. split; [lia|]. split.
    + replace (Z.to_nat (i - i0)) with (S (Z.to_nat (i - (i0 + 1)))) by lia.
      exact Hat.
    + intros j Hj. destruct (Z.eq_dec j i0) as [->|Hj0].
      * rewrite Z.sub_diag. simpl. congruence.
      * replace (Z.to_nat (j - i0)) with (S (Z.to_nat (j - (i0 + 1))))
          by lia.
        apply Hfirst. lia.
  - intros (Hi & Hmax & _ & _)%IH. lia.
Qed.

Lemma truncate_row_other c q hopVector c' p :
  truncate_row flags c q hopVector = Ok c' -> p <> q ->
  Sent c' !! p = Sent c !! p /\ Rcvd c' !! p = Rcvd c !! p.
Proof.
  unfold truncate_row. destruct (scan_target flags hopVector 0) as [i|].
  - intros (sent & _ & (rcvd & _ & [= <-])%bind_Ok)%bind_Ok Hne. simpl.
    rewrite !lookup_insert_ne by congruence. auto.
  - intros [= <-]. auto.
Qed.

Lemma truncate_row_at c q hopVector c' :
  truncate_row flags c q hopVector = Ok c' ->
  match scan_target flags hopVector 0 with
  | Some i =>
      Sent c' !! q = Some (take (Z.to_nat (i + 1)) (row (Sent c) q)) /\
      Rcvd c' !! q = Some (take (Z.to_nat (i + 1)) (row (Rcvd c) q))
  | None => Sent c' !! q = Sent c !! q /\ Rcvd c' !! q = Rcvd c !! q
  end.
Proof.
  unfold truncate_row. destruct (scan_target flags hopVector 0) as [i|].
  - intros (sent & [_ ->]%slice_to_Ok
            & (rcvd & [_ ->]%slice_to_Ok & [= <-])%bind_Ok)%bind_Ok.
    simpl. rewrite !lookup_insert_eq. auto.
  - intros [= <-]. auto.
Qed.

Lemma row_lookup_eq {A} (m m' : gmap Z (list A)) p :
  m' !! p = m !! p -> row m' p = row m p.
Proof. unfold row. intros ->. reflexivity. Qed.

Lemma truncate_rows_spec rows : forall c c' p,
  NoDup rows.*1 ->
  truncate_rows flags c rows = Ok c' ->
  (p ∉ rows.*1 ->
   Sent c' !! p = Sent c !! p /\ Rcvd c' !! p = Rcvd c !! p) /\
  (forall hopVector, (p, hopVector) ∈ rows ->
   match scan_target flags hopVector 0 with
   | Some i =>
       Sent c' !! p = Some (take (Z.to_nat (i + 1)) (row (Sent c) p)) /\
       Rcvd c' !! p = Some (take (Z.to_nat (i + 1)) (row (Rcvd c) p))
   | None => Sent c' !! p = Sent c !! p /\ Rcvd c' !! p = Rcvd c !! p
   end).
Proof.
  induction rows as [|[q hv0] rows IH]; intros c c' p Hnodup; simpl.
  - intros [= <-]. split; [auto|]. intros hv Hin. inversion Hin.
  - apply NoDup_cons in Hnodup as [Hq Hnodup].
    intros (c1 & H1 & Hrest)%bind_Ok.
    destruct (IH c1 c' p Hnodup Hrest) as [IHout IHin].
    split.
    + intros Hp. apply not_elem_of_cons in Hp as [Hpq Hp].
      destruct (IHout Hp) as [-> ->].
      apply (truncate_row_other _ _ _ _ p H1 Hpq).
    + intros hv Hin. apply elem_of_cons in Hin as [[= -> ->]|Hin].
      * destruct (IHout Hq) as [-> ->]. apply (truncate_row_at _ _ _ _ H1).
      * assert (Hpq : p <> q).
        { intros ->. apply Hq. apply list_elem_of_fmap.
          exists (q, hv). auto. }
        destruct (truncate_row_other _ _ _ _ p H1 Hpq) as [HS HR].
        specialize (IHin hv Hin).
        rewrite (row_lookup_eq _ _ p HS), (row_lookup_eq _ _ p HR) in IHin.
        destruct (scan_target flags hv 0); [exact IHin|].
        rewrite <- HS, <- HR. exact IHin.
Qed.

(** What the truncation pass does to a port whose path holds the target
    name at a first index [i] below [maxTTL - 1]: [Sent] and [Rcvd] are
    cut to their first [i + 1] entries, [Paths] is left alone. *)
Lemma truncate_cuts_Sent_Rcvd c c' p hopVector i :
  truncate flags c = Ok c' ->
  Paths c !! p = Some hopVector ->
  scan_target flags hopVector 0 = Some i ->
  Sent c' !! p = Some (take (Z.to_nat (i + 1)) (row (Sent c) p)) /\
  Rcvd c' !! p = Some (take (Z.to_nat (i + 1)) (row (Rcvd c) p)) /\
  Paths c' !! p = Some hopVector.
Proof.
  intros Htr Hp Hscan.
  rewrite (truncate_Paths _ _ Htr).
  unfold truncate in Htr.
  destruct (truncate_rows_spec _ c c' p
              (NoDup_fst_map_to_list (Paths c)) Htr) as [_ Hin].
  specialize (Hin hopVector). rewrite Hscan in Hin.
  destruct Hin as [HS HR]; [apply elem_of_map_to_list; exact Hp|]. auto.
Qed.

(** *** The report *)

Lemma normalizeRcvd_len sent rcvd norm :
  Classifier.normalizeRcvd sent rcvd = Some norm ->
  len norm = len sent /\ len norm = len rcvd.
Proof.
  unfold Classifier.normalizeRcvd.
  destruct (Z.eqb_spec (len rcvd) (len sent)) as [Heq|]; [|discriminate].
  simpl. intros [= <-]. unfold len in *.
  rewrite length_zip_with. lia.
Qed.

(** A port that enters the report enters it with three vectors of one
    length: the path is copied up to the length of the counters. *)
Lemma classify_row_lengths flapped c lossy port sentVector lossy' :
  Paths lossy !! port = None ->
  classify_row flags flapped c lossy port sentVector = Ok lossy' ->
  Paths lossy' !! port = None \/
  exists hosts rcvdVector,
    Paths lossy' !! port = Some hosts /\
    Sent lossy' !! port = Some sentVector /\
    Rcvd lossy' !! port = Some rcvdVector /\
    hosts = take (length sentVector) (row (Paths c) port) /\
    len hosts = len sentVector /\ len hosts = len rcvdVector.
Proof.
  intros Hnone. unfold classify_row.
  destruct (decide (port ∈ flapped)); [intros [= <-]; auto|].
  destruct (Rcvd c !! port) as [rcvdVector|]; [|intros [= <-]; auto].
  destruct (Classifier.normalizeRcvd sentVector rcvdVector) as [norm|] eqn:Hn;
    [|intros [= <-]; auto].
  destruct (Classifier.isLossy norm || showAll flags); [|intros [= <-]; auto].
  apply normalizeRcvd_len in Hn as [HlenS HlenR].
  intros (hosts & [Hrange ->]%slice_to_Ok & [= <-])%bind_Ok.
  right. exists (take (Z.to_nat (len norm)) (row (Paths c) port)), rcvdVector.
  simpl. rewrite !lookup_insert_eq.
  assert (Hn : Z.to_nat (len norm) = length sentVector)
    by (unfold len in *; lia).
  rewrite Hn. repeat split.
  - unfold len in *. rewrite length_take. lia.
  - unfold len in *. rewrite length_take. lia.
Qed.

End Main.

End CorrelatorFacts.

Import Correlator CorrelatorFacts GoFacts Samples.

(** C3, as stated: [Rcvd[p][t] <= Sent[p][t]] at every point of the run.
    A response counted before any probe record of its cell (the sender
    transmits before it publishes the record, and publishes nothing once
    stopped) leaves [Rcvd[32768][0] = 1] and [Sent[32768][0] = 0]. *)
Lemma rcvd_exceeds_sent :
  (st <- run default_flags (init default_flags)
           [icmp_ev 32768 1 "hop1.example"] ;;
   cell (Rcvd (counters st)) 32768 0) = Ok 1 /\
  (st <- run default_flags (init default_flags)
           [icmp_ev 32768 1 "hop1.example"] ;;
   cell (Sent (counters st)) 32768 0) = Ok 0 /\
  ~ 1 <= 0.
Proof. split; [|split]; [vm_compute; reflexivity ..|lia]. Qed.

(** C3, amended: at every point of a run of fewer than [2^63] events,
    for every port [p] of the sweep and every TTL index [t],
    [Sent[p][t]] is the number of probe records consumed so far for that
    cell and [Rcvd[p][t]] the number of responses processed so far for
    it; both are non-negative, and [Rcvd[p][t] <= Sent[p][t]] holds
    exactly when no more responses than probe records were processed for
    the cell, which nothing in the code enforces. *)
Theorem counters_count_events flags evs st p t :
  run flags (init flags) evs = Ok st ->
  len evs <= max_int ->
  swept flags p -> 0 <= t < maxTTL flags ->
  exists sent rcvd,
    cell (Sent (counters st)) p t = Ok sent /\
    cell (Rcvd (counters st)) p t = Ok rcvd /\
    sent = count_probes p t evs /\
    rcvd = count_responses p t evs /\
    0 <= rcvd /\ 0 <= sent /\
    (rcvd <= sent <->
     count_responses p t evs <= count_probes p t evs).
Proof.
  intros Hrun Hlen Hp Ht.
  destruct (init_cells flags p t Hp Ht) as (HS & HR & _).
  destruct (run_counts flags evs _ _ p t 0 0 Hrun HS HR) as [HS' HR'];
    try lia.
  pose proof (count_probes_range p t evs).
  pose proof (count_responses_range p t evs).
  exists (count_probes p t evs), (count_responses p t evs).
  rewrite HS', HR'. simpl. repeat split; try lia.
Qed.

Lemma counters_count_events_witness :
  exists st sent rcvd,
    run small_flags (init small_flags) two_hop_run = Ok st /\
    cell (Sent (counters st)) 32768 1 = Ok sent /\
    cell (Rcvd (counters st)) 32768 1 = Ok rcvd /\
    sent = count_probes 32768 1 two_hop_run /\
    rcvd = count_responses 32768 1 two_hop_run /\
    0 <= rcvd /\ 0 <= sent /\
    (rcvd <= sent <->
     count_responses 32768 1 two_hop_run
     <= count_probes 32768 1 two_hop_run).
Proof.
  destruct (run small_flags (init small_flags) two_hop_run) as [st|e] eqn:Hrun;
    [|vm_compute in Hrun; discriminate].
  destruct (counters_count_events small_flags two_hop_run st 32768 1)
    as (sent & rcvd & H);
    [exact Hrun|vm_compute; discriminate|unfold swept; simpl; lia
    |simpl; lia|].
  exists st, sent, rcvd. split; [reflexivity|exact H].
Defined.

(** C6. [lastClosed] starts at [maxTTL]; no step raises it; after a run
    that processed at least one TcpResponse it is the minimum of the
    response TTLs seen so far; no run ever closes a stop channel twice
    (closing a closed channel is the panic [CloseOfClosedChannel], which
    no run reaches, and the closed channels are exactly the slots from
    [lastClosed] up); and a TcpResponse whose TTL is at or above the
    current [lastClosed] leaves every channel as it was. *)
Theorem lastClosed_watermark flags evs :
  lastClosed (init flags) = maxTTL flags /\
  run flags (init flags) evs <> Panic CloseOfClosedChannel /\
  forall st, run flags (init flags) evs = Ok st ->
    lastClosed st = min_list (maxTTL flags) (tcp_ttls evs) /\
    (tcp_ttls evs <> [] ->
     lastClosed st ∈ tcp_ttls evs /\
     Forall (fun k => lastClosed st <= k) (tcp_ttls evs)) /\
    watermark_inv flags st /\
    (forall ev st', step flags st ev = Ok st' ->
                    lastClosed st' <= lastClosed st) /\
    (forall ev, step flags st ev <> Panic CloseOfClosedChannel) /\
    (forall resp st',
       lastClosed st <= ttl (tcpProbe resp) ->
       step flags st (EvResponse (RespTCP resp)) = Ok st' ->
       senderDone st' = senderDone st /\ lastClosed st' = lastClosed st).
Proof.
  split; [reflexivity|].
  split; [apply run_no_double, watermark_inv_init|].
  intros st Hrun.
  pose proof (run_lastClosed flags evs _ _ Hrun) as Hlast.
  pose proof (run_watermark_inv flags evs _ _ (watermark_inv_init flags) Hrun)
    as Hinv.
  simpl in Hlast. split; [exact Hlast|].
  split.
  { intros Hne. rewrite Hlast. split.
    - apply min_list_elem; [exact Hne|].
      eapply Forall_impl;
        [eapply (run_tcp_ttls flags evs); [|exact Hrun]|].
      + intros p. apply (init_len_rows flags p).
      + simpl. intros k Hk. lia.
    - apply min_list_lower. }
  split; [exact Hinv|].
  split.
  { intros ev st' Hstep. rewrite (step_lastClosed flags _ _ _ Hstep).
    destruct ev as [probe|[resp|resp]]; lia. }
  split; [intros ev; apply step_no_double, Hinv|].
  intros resp st' Hge Hstep.
  pose proof (step_senderDone flags _ _ _ Hstep) as Hdone. simpl in Hdone.
  rewrite close_senders_noop in Hdone by exact Hge.
  split; [congruence|].
  rewrite (step_lastClosed flags _ _ _ Hstep). lia.
Qed.

Lemma lastClosed_watermark_witness :
  exists st,
    run small_flags (init small_flags) two_hop_run = Ok st /\
    lastClosed st = 2 /\
    lastClosed st ∈ tcp_ttls two_hop_run /\
    (forall st',
       step small_flags st (tcp_ev 32768 3) = Ok st' ->
       senderDone st' = senderDone st /\ lastClosed st' = lastClosed st).
Proof.
  destruct (run small_flags (init small_flags) two_hop_run) as [st|e] eqn:Hrun;
    [|vm_compute in Hrun; discriminate].
  destruct (lastClosed_watermark small_flags two_hop_run)
    as (_ & _ & Hall).
  destruct (Hall st Hrun) as (Hlast & Hmin & _ & _ & _ & Hnoop).
  exists st. split; [reflexivity|].
  split; [rewrite Hlast; vm_compute; reflexivity|].
  split; [apply Hmin; vm_compute; discriminate|].
  intros st' Hstep.
  apply (Hnoop {| tcpProbe := {| srcPort := 32768; ttl := 3 |};
                  tcpRtt := 1 |} st'); [|exact Hstep].
  rewrite Hlast. vm_compute. discriminate.
Defined.

(** C9, as stated: the stop signal of the sender for TTL [t] would be
    closed by a TCP response at TTL [t] itself, and at program end
    otherwise. After a TCP response at TTL 5 the sender for TTL 5 is
    still running (its channel is open) while the one for TTL 6 is
    stopped; and with no TCP response at all the channel of TTL 30 is
    open when the response stream ends, after which [main] closes
    nothing. *)
Lemma sender_of_answered_ttl_not_stopped :
  (st <- run default_flags (init default_flags) [tcp_ev 32768 5] ;;
   stop_channel st 5) = Ok ChanOpen /\
  (st <- run default_flags (init default_flags) [tcp_ev 32768 5] ;;
   stop_channel st 6) = Ok ChanClosed /\
  (st <- run default_flags (init default_flags) [] ;;
   stop_channel st 30) = Ok ChanOpen.
Proof. repeat split; vm_compute; reflexivity. Qed.

(** C9, amended: for every TTL [t] in [minTTL, maxTTL] (with
    [minTTL >= 1]) the stop signal of the sender for [t] is closed at
    most once, and at any point of the run it is closed if and only if a
    TCP response with TTL strictly lower than [t] has been processed
    (so it is closed when the first such response is processed);
    otherwise it stays open, also when the response stream ends. In
    particular a TCP response at TTL [k] does not stop the sender that
    probes TTL [k] itself. *)
Theorem stop_channel_closed_iff flags evs st t :
  1 <= minTTL flags ->
  minTTL flags <= t <= maxTTL flags ->
  run flags (init flags) evs = Ok st ->
  (stop_channel st t = Ok ChanClosed
   <-> Exists (fun k => k < t) (tcp_ttls evs)) /\
  (stop_channel st t = Ok ChanOpen
   <-> Forall (fun k => t <= k) (tcp_ttls evs)) /\
  (forall ev, step flags st ev <> Panic CloseOfClosedChannel).
Proof.
  intros Hmin Ht Hrun.
  pose proof (run_lastClosed flags evs _ _ Hrun) as Hlast. simpl in Hlast.
  pose proof (run_watermark_inv flags evs _ _ (watermark_inv_init flags) Hrun)
    as Hinv.
  pose proof Hinv as [_ Hex].
  unfold stop_channel. rewrite Hex.
  destruct (Z.leb_spec 0 (t - 1)), (Z.ltb_spec (t - 1) (maxTTL flags));
    try lia. simpl.
  unfold chan_at.
  destruct (Z.ltb_spec (t - 1) (minTTL flags - 1)); [lia|].
  pose proof (min_list_lt (maxTTL flags) (tcp_ttls evs) t) as Hlt.
  rewrite <- Hlast in Hlt.
  assert (Hiff : lastClosed st < t
                 <-> Exists (fun k => k < t) (tcp_ttls evs))
    by (rewrite Hlt; split; [intros [?|?]; [lia|assumption]|auto]).
  assert (Hneg : Forall (fun k => t <= k) (tcp_ttls evs)
                 <-> ~ Exists (fun k => k < t) (tcp_ttls evs)).
    by apply Forall_ge_not_Exists_lt.
  split; [|split].
  - rewrite <- Hiff.
    destruct (Z.leb_spec (lastClosed st) (t - 1));
      split; try discriminate; try reflexivity; lia.
  - rewrite Hneg, <- Hiff.
    destruct (Z.leb_spec (lastClosed st) (t - 1));
      split; try discriminate; try reflexivity; lia.
  - intros ev. apply step_no_double, Hinv.
Qed.

Lemma stop_channel_closed_iff_witness :
  exists st,
    run small_flags (init small_flags) two_hop_run = Ok st /\
    (stop_channel st 2 = Ok ChanOpen
     <-> Forall (fun k => 2 <= k) (tcp_ttls two_hop_run)) /\
    (stop_channel st 3 = Ok ChanClosed
     <-> Exists (fun k => k < 3) (tcp_ttls two_hop_run)).
Proof.
  destruct (run small_flags (init small_flags) two_hop_run) as [st|e] eqn:Hrun;
    [|vm_compute in Hrun; discriminate].
  exists st. split; [reflexivity|]. split.
  - apply (stop_channel_closed_iff small_flags two_hop_run st 2);
      [simpl; lia|simpl; lia|exact Hrun].
  - apply (stop_channel_closed_iff small_flags two_hop_run st 3);
      [simpl; lia|simpl; lia|exact Hrun].
Defined.

(** C8. The claim reads: every response the receivers emit has its port
    in the sweep and its TTL in [1, maxTTL], so the correlator always
    indexes an existing counter. [ICMPReceiver] checks neither: a
    time-exceeded message quoting a segment with sequence number
    [0x00000539] and source port 40000 is emitted with TTL 0 and port
    40000, passes the resolver, and makes the correlator panic on
    [counters.Rcvd[40000][-1]]. [TCPReceiver] checks the TTL but not the
    port: an ACK of the target to port 51000 is emitted with port 51000,
    and the correlator panics on [counters.Rcvd[51000][2]]. *)
Theorem receivers_emit_unchecked_probes :
  icmp_packet Ip4 56 11 0
    {| Source := 40000; Destination := 443; SeqNum := 0x00000539;
       AckNum := 0; Flags := 0x02 |}
    "198.51.100.7" 1700000000123
  = Some {| icmpProbe := {| srcPort := 40000; ttl := 0 |};
            fromAddr := "198.51.100.7";
            fromName := EmptyString;
            icmpRtt := 15033154 |} /\
  (val <- resolve (fun _ => ([], Some "no such host"%string))
            (RespICMP {| icmpProbe := {| srcPort := 40000; ttl := 0 |};
                         fromAddr := "198.51.100.7";
                         fromName := EmptyString;
                         icmpRtt := 15033154 |}) ;;
   step default_flags (init default_flags) (EvResponse val))
  = Panic IndexOutOfRange /\
  tcp_packet RST_bit ACK_bit Ip4 "192.0.2.1" 22 30 40
    {| Source := 22; Destination := 51000; SeqNum := 77;
       AckNum := 0x03000001; Flags := 0x10 |}
    "192.0.2.1" 1700000000123
  = Some {| tcpProbe := {| srcPort := 51000; ttl := 3 |};
            tcpRtt := 15034491 |} /\
  step default_flags (init default_flags)
    (EvResponse (RespTCP {| tcpProbe := {| srcPort := 51000; ttl := 3 |};
                            tcpRtt := 15034491 |}))
  = Panic IndexOutOfRange /\
  ~ swept default_flags 40000 /\ ~ swept default_flags 51000.
Proof.
  repeat split; try (vm_compute; reflexivity);
    unfold swept; simpl; lia.
Qed.

(** C7. The claim reads: after the response stream closes, the Paths,
    Sent and Rcvd vectors of a port whose path contains the target are
    all truncated at the first target hop. The truncation loop assigns
    the shortened path to its loop variable only. For a target two hops
    away that answered the probes of TTL 2 and 3, [Sent] and [Rcvd] of
    the port are cut to length 2 while its [Paths] row keeps its four
    entries, with the target at positions 1 and 2. *)
Theorem truncate_leaves_Paths :
  (st <- run small_flags (init small_flags) two_hop_run ;;
   c <- truncate small_flags (counters st) ;;
   Ok (row (Paths c) 32768, row (Sent c) 32768, row (Rcvd c) 32768))
  = Ok (["hop1.example"; "target.example"; "target.example"; "?"]%string,
        [1; 1], [1; 1]).
Proof. vm_compute. reflexivity. Qed.

(** * Further properties of the code *)

(** ** isLossy and normalizeRcvd *)

(** X1. [isLossy] answers true exactly when some index [i] with more
    than two samples from it onwards has no later sample [j] with
    [hitRates[j] >= hitRates[i]]; this holds for every vector, NaN
    included. *)
Theorem isLossy_characterised (hitRates : list float64) :
  isLossy hitRates = true <->
  exists i, 0 <= i /\ len hitRates - i > 2 /\
            forall j, i < j < len hitRates ->
                      geb (at_index hitRates j) (at_index hitRates i) = false.
Proof. apply isLossy_not_reached. Qed.

(** X2. On a vector without NaN, [isLossy] answers true exactly when some
    index with more than two samples from it onwards is strictly above
    every later sample. *)
Theorem isLossy_strict_without_nan (hitRates : list float64) :
  no_nan hitRates ->
  isLossy hitRates = true <->
  exists i, 0 <= i /\ len hitRates - i > 2 /\
            forall j, i < j < len hitRates ->
                      ltb (at_index hitRates j) (at_index hitRates i) = true.
Proof. apply isLossy_no_nan. Qed.

Lemma isLossy_strict_without_nan_witness :
  no_nan [f1_0; f0_9; f0_8; f0_1] /\
  (isLossy [f1_0; f0_9; f0_8; f0_1] = true <->
   exists i, 0 <= i /\ len [f1_0; f0_9; f0_8; f0_1] - i > 2 /\
             forall j, i < j < len [f1_0; f0_9; f0_8; f0_1] ->
                       ltb (at_index [f1_0; f0_9; f0_8; f0_1] j)
                           (at_index [f1_0; f0_9; f0_8; f0_1] i) = true).
Proof.
  assert (Hnan : no_nan [f1_0; f0_9; f0_8; f0_1]).
  { intros i Hi. unfold len in Hi; simpl in Hi.
    assert (Hc : i = 0 \/ i = 1 \/ i = 2 \/ i = 3) by lia.
    destruct Hc as [-> | [-> | [-> | ->]]]; reflexivity. }
  split; [exact Hnan|].
  apply (isLossy_strict_without_nan [f1_0; f0_9; f0_8; f0_1] Hnan).
Defined.

(** X3. A vector of at most two hit rates is never reported lossy,
    whatever its values. *)
Theorem isLossy_short_vector (hitRates : list float64) :
  len hitRates <= 2 -> isLossy hitRates = false.
Proof.
  intros Hlen. destruct (isLossy hitRates) eqn:E; [|reflexivity].
  apply isLossy_not_reached in E as (i & Hi & Hseg & _). lia.
Qed.

Lemma isLossy_short_vector_witness :
  len [f1_0; f0_1] <= 2 /\ isLossy [f1_0; f0_1] = false.
Proof.
  split; [vm_compute; discriminate|].
  apply (isLossy_short_vector [f1_0; f0_1]). vm_compute. discriminate.
Defined.

(** X4. A NaN hit rate (a cell with nothing sent and nothing received)
    followed by at least two more samples makes [isLossy] answer true,
    whatever the other samples are. *)
Theorem isLossy_nan_sample (hitRates : list float64) i :
  0 <= i -> len hitRates - i > 2 -> at_index hitRates i = NaN ->
  isLossy hitRates = true.
Proof. apply isLossy_nan_at. Qed.

Lemma isLossy_nan_sample_witness :
  0 <= 1 /\ len [f0_9; NaN; f1_0; f1_0] - 1 > 2 /\
  at_index [f0_9; NaN; f1_0; f1_0] 1 = NaN /\
  isLossy [f0_9; NaN; f1_0; f1_0] = true.
Proof.
  split; [lia|]. split; [vm_compute; reflexivity|]. split; [reflexivity|].
  apply (isLossy_nan_sample [f0_9; NaN; f1_0; f1_0] 1);
    [lia|vm_compute; reflexivity|reflexivity].
Defined.

(** X5. [normalizeRcvd] returns its error exactly when the two vectors
    differ in length; otherwise the result has their length, its entry
    [i] is [float64(rcvd[i]) / float64(sent[i])], and a cell with nothing
    sent and nothing received yields NaN. *)
Theorem normalizeRcvd_result (sent rcvd : list Z) :
  (normalizeRcvd sent rcvd = None <-> len rcvd <> len sent) /\
  forall norm, normalizeRcvd sent rcvd = Some norm ->
    len norm = len sent /\ len norm = len rcvd /\
    (forall (i : nat) r s,
       rcvd !! i = Some r -> sent !! i = Some s ->
       norm !! i = Some (div (of_int r) (of_int s))) /\
    (forall i : nat,
       rcvd !! i = Some 0 -> sent !! i = Some 0 -> norm !! i = Some NaN).
Proof.
  assert (Hentry : forall norm, normalizeRcvd sent rcvd = Some norm ->
            forall (i : nat) r s,
              rcvd !! i = Some r -> sent !! i = Some s ->
              norm !! i = Some (div (of_int r) (of_int s))).
  { unfold normalizeRcvd. intros norm.
    destruct (len rcvd =? len sent); [|discriminate]. simpl.
    intros [= <-] i r s Hr Hs. rewrite lookup_zip_with, Hr. simpl.
    rewrite Hs. reflexivity. }
  split.
  - unfold normalizeRcvd.
    destruct (Z.eqb_spec (len rcvd) (len sent)); simpl;
      split; try congruence; discriminate.
  - intros norm Hnorm.
    destruct (normalizeRcvd_len _ _ _ Hnorm) as [HS HR].
    repeat split; try assumption.
    + apply Hentry, Hnorm.
    + intros i Hr Hs. rewrite (Hentry norm Hnorm i 0 0 Hr Hs).
      reflexivity.
Qed.

Lemma normalizeRcvd_result_witness :
  normalizeRcvd [0; 10; 10] [0; 9; 10] = Some [NaN; f0_9; f1_0] /\
  len [NaN; f0_9; f1_0] = len [0; 10; 10] /\
  [NaN; f0_9; f1_0] !! 0%nat = Some NaN.
Proof.
  assert (H : normalizeRcvd [0; 10; 10] [0; 9; 10] = Some [NaN; f0_9; f1_0])
    by (vm_compute; reflexivity).
  split; [exact H|].
  destruct (normalizeRcvd_result [0; 10; 10] [0; 9; 10]) as [_ Hall].
  destruct (Hall _ H) as (Hlen & _ & _ & Hnan).
  split; [exact Hlen|]. apply Hnan; reflexivity.
Defined.

(** ** The stamp *)

(** X6. For every integer [ttl] and every clock value, the sequence
    number built by the sender fits 32 bits, carries [ttl mod 256] in its
    high byte and [now_ms mod 2^24] in its low 24 bits, and the TCP
    receiver recovers exactly these two values from the acknowledgement;
    so TTLs that differ by 256, and clock values that differ by [2^24]
    milliseconds, are stamped alike. *)
Theorem seqNum_wire_format ttl now_ms :
  0 <= seqNum ttl now_ms < 2 ^ 32 /\
  Z.shiftr (seqNum ttl now_ms) 24 = ttl mod 2 ^ 8 /\
  Z.land (seqNum ttl now_ms) 0x00ffffff = now_ms mod 2 ^ 24 /\
  tcp_recover (ack_of (seqNum ttl now_ms))
    = (ttl mod 2 ^ 8, now_ms mod 2 ^ 24) /\
  seqNum (ttl + 256) now_ms = seqNum ttl now_ms /\
  seqNum ttl (now_ms + 2 ^ 24) = seqNum ttl now_ms.
Proof.
  split; [apply seqNum_range|].
  split; [apply seqNum_high|].
  split; [apply seqNum_low|].
  split; [apply tcp_recover_stamp|].
  rewrite !seqNum_fields. split.
  - replace (ttl + 256) with (ttl + 1 * 2 ^ 8) by lia.
    rewrite Z.mod_add by lia. reflexivity.
  - replace (now_ms + 2 ^ 24) with (now_ms + 1 * 2 ^ 24) by lia.
    rewrite Z.mod_add by lia. reflexivity.
Qed.

(** ** The receivers and the resolver *)

(** X7. [TCPReceiver] emits a response only for a segment that is long
    enough, comes from the target address and the target port and has RST
    or ACK set; the response carries the destination port of the segment
    as port, the high byte of [AckNum - 1] as TTL, which lies in
    [1, maxTTL], and the difference between the masked clock and the low
    24 bits of [AckNum - 1] as rtt, which lies in [0, 2^24). *)
Theorem tcp_packet_accepts_only RST ACK af targetAddr targetPort maxTTL n
    tcpHdr from now_ms r :
  tcp_packet RST ACK af targetAddr targetPort maxTTL n tcpHdr from now_ms
    = Some r ->
  ipHdrSize af + tcpHdrSize <= n /\
  Source tcpHdr = targetPort /\
  (Z.land (Flags tcpHdr) RST = RST \/ Z.land (Flags tcpHdr) ACK = ACK) /\
  from = targetAddr /\
  srcPort (tcpProbe r) = Destination tcpHdr /\
  ttl (tcpProbe r) = Z.shiftr (u32 (AckNum tcpHdr - 1)) 24 /\
  1 <= ttl (tcpProbe r) <= maxTTL /\
  tcpRtt r = clock24 now_ms - Z.land (u32 (AckNum tcpHdr - 1)) 0x00ffffff /\
  0 <= tcpRtt r < 2 ^ 24.
Proof.
  unfold tcp_packet, ackNum_of, stamp_ttl, stamp_ts.
  destruct (Z.ltb_spec n (ipHdrSize af + tcpHdrSize)); [discriminate|].
  destruct (Z.eqb_spec (Source tcpHdr) targetPort); cbn [negb];
    [|discriminate].
  destruct (Z.eqb_spec (Z.land (Flags tcpHdr) RST) RST) as [HR|HR];
    destruct (Z.eqb_spec (Z.land (Flags tcpHdr) ACK) ACK) as [HA|HA];
    cbn [negb andb]; try discriminate;
    (destruct (String.eqb_spec from targetAddr); cbn [negb]; [|discriminate];
     destruct (Z.gtb_spec (Z.shiftr (u32 (AckNum tcpHdr - 1)) 24) maxTTL);
       cbn [orb]; [discriminate|];
     destruct (Z.ltb_spec (Z.shiftr (u32 (AckNum tcpHdr - 1)) 24) 1);
       [discriminate|];
     destruct (Z.gtb_spec (Z.land (u32 (AckNum tcpHdr - 1)) 0x00ffffff)
                 (clock24 now_ms)); [discriminate|];
     intros [= <-]; cbn [tcpProbe tcpRtt srcPort ttl];
     pose proof (clock24_range now_ms) as Hnow;
     assert (Hts : 0 <= Z.land (u32 (AckNum tcpHdr - 1)) 0x00ffffff)
       by (rewrite land_ffffff; apply Z.mod_pos_bound; lia);
     assert (Hrtt : u32 (clock24 now_ms
                         - Z.land (u32 (AckNum tcpHdr - 1)) 0x00ffffff)
                    = clock24 now_ms
                      - Z.land (u32 (AckNum tcpHdr - 1)) 0x00ffffff)
       by (apply u32_small; lia);
     rewrite Hrtt; repeat split; auto; lia).
Qed.

Lemma tcp_packet_accepts_only_witness :
  exists r,
    tcp_packet RST_bit ACK_bit Ip4 "192.0.2.1" 22 30 40
      {| Source := 22; Destination := 32800; SeqNum := 0;
         AckNum := ack_of (seqNum 7 1700000000000); Flags := 0x14 |}
      "192.0.2.1" 1700000000042 = Some r /\
    srcPort (tcpProbe r) = 32800 /\
    1 <= ttl (tcpProbe r) <= 30 /\
    0 <= tcpRtt r < 2 ^ 24.
Proof.
  destruct (tcp_packet RST_bit ACK_bit Ip4 "192.0.2.1" 22 30 40
      {| Source := 22; Destination := 32800; SeqNum := 0;
         AckNum := ack_of (seqNum 7 1700000000000); Flags := 0x14 |}
      "192.0.2.1" 1700000000042) as [r|] eqn:E;
    [|vm_compute in E; discriminate].
  exists r. split; [reflexivity|].
  destruct (tcp_packet_accepts_only _ _ _ _ _ _ _ _ _ _ _ E)
    as (_ & _ & _ & _ & Hport & _ & Httl & _ & Hrtt).
  auto.
Defined.

(** X8. The answer of the target to a probe of this run (acknowledging
    the stamped sequence number plus one, RST or ACK set, long enough),
    processed when the masked clock is not below the stamped one, is
    emitted with the port and the TTL of the probe and with the
    difference of the two masked clocks as rtt. *)
Theorem tcp_packet_recovers_probe RST ACK af targetAddr targetPort maxTTL n
    flagBits port ttl0 sent_ms now_ms :
  ipHdrSize af + tcpHdrSize <= n ->
  Z.land flagBits RST = RST \/ Z.land flagBits ACK = ACK ->
  1 <= ttl0 <= maxTTL -> ttl0 <= 255 ->
  clock24 sent_ms <= clock24 now_ms ->
  tcp_packet RST ACK af targetAddr targetPort maxTTL n
    {| Source := targetPort; Destination := port; SeqNum := 0;
       AckNum := ack_of (seqNum ttl0 sent_ms); Flags := flagBits |}
    targetAddr now_ms
  = Some {| tcpProbe := {| srcPort := port; ttl := ttl0 |};
            tcpRtt := clock24 now_ms - clock24 sent_ms |}.
Proof. apply tcp_packet_answer. Qed.

Lemma tcp_packet_recovers_probe_witness :
  tcp_packet RST_bit ACK_bit Ip4 "192.0.2.1" 22 30 40
    {| Source := 22; Destination := 32800; SeqNum := 0;
       AckNum := ack_of (seqNum 7 1700000000000); Flags := 0x14 |}
    "192.0.2.1" 1700000000042
  = Some {| tcpProbe := {| srcPort := 32800; ttl := 7 |};
            tcpRtt := clock24 1700000000042 - clock24 1700000000000 |}.
Proof.
  apply (tcp_packet_recovers_probe RST_bit ACK_bit Ip4 "192.0.2.1" 22 30 40
           0x14 32800 7 1700000000000 1700000000042);
    [vm_compute; discriminate|left; reflexivity|lia|lia
    |vm_compute; discriminate].
Defined.

(** X9. [ICMPReceiver] drops a message exactly when it is shorter than
    the outer IP header, the ICMP header, the inner IP header and eight
    bytes of TCP header together, or its type is not time-exceeded, or
    its code is not 0; every other message is emitted, with the quoted
    source port and the high byte of the quoted sequence number taken as
    they come: for a well-formed header any port in [0, 65535] and any
    TTL in [0, 255]. *)
Theorem icmp_packet_filter af n msgType msgCode tcpHdr from now_ms :
  (icmp_packet af n msgType msgCode tcpHdr from now_ms = None <->
   n < outerIPHdrSize af + icmpHdrSize + innerIPHdrSize af + icmpTcpHdrSize
   \/ msgType <> icmpMsgType af \/ msgCode <> 0) /\
  forall r, icmp_packet af n msgType msgCode tcpHdr from now_ms = Some r ->
    srcPort (icmpProbe r) = Source tcpHdr /\
    ttl (icmpProbe r) = Z.shiftr (SeqNum tcpHdr) 24 /\
    fromAddr r = from /\ fromName r = EmptyString /\
    (wf_header tcpHdr ->
     0 <= srcPort (icmpProbe r) < 2 ^ 16 /\
     0 <= ttl (icmpProbe r) <= 255).
Proof.
  unfold icmp_packet.
  destruct (Z.ltb_spec n (outerIPHdrSize af + icmpHdrSize
                          + innerIPHdrSize af + icmpTcpHdrSize)) as [Hn|Hn].
  { split; [split; auto|discriminate]. }
  destruct (Z.eqb_spec msgType (icmpMsgType af)) as [Ht|Ht];
    destruct (Z.eqb_spec msgCode 0) as [Hc|Hc]; cbn [negb orb];
    try (split; [split; auto|discriminate]).
  split.
  - split; [discriminate|]. intros [?|[?|?]]; [lia|contradiction..].
  - intros r [= <-]. cbn [icmpProbe srcPort ttl fromAddr fromName].
    repeat split; try reflexivity.
    + destruct H as (Hs & _). lia.
    + destruct H as (Hs & _). lia.
    + apply Z.shiftr_nonneg. destruct H as (_ & _ & Hq & _). lia.
    + destruct H as (_ & _ & Hq & _).
      rewrite Z.shiftr_div_pow2 by lia.
      assert (SeqNum tcpHdr / 2 ^ 24 < 2 ^ 8)
        by (apply Z.div_lt_upper_bound; lia).
      lia.
Qed.

Lemma icmp_packet_filter_witness :
  exists r,
    icmp_packet Ip4 56 11 0
      {| Source := 40000; Destination := 443; SeqNum := 0xfe000539;
         AckNum := 0; Flags := 0x02 |}
      "198.51.100.7" 1700000000123 = Some r /\
    srcPort (icmpProbe r) = 40000 /\
    0 <= ttl (icmpProbe r) <= 255.
Proof.
  destruct (icmp_packet Ip4 56 11 0
      {| Source := 40000; Destination := 443; SeqNum := 0xfe000539;
         AckNum := 0; Flags := 0x02 |}
      "198.51.100.7" 1700000000123) as [r|] eqn:E;
    [|vm_compute in E; discriminate].
  exists r. split; [reflexivity|].
  destruct (icmp_packet_filter Ip4 56 11 0
      {| Source := 40000; Destination := 443; SeqNum := 0xfe000539;
         AckNum := 0; Flags := 0x02 |}
      "198.51.100.7" 1700000000123) as [_ Hall].
  destruct (Hall r E) as (Hport & _ & _ & _ & Hwf).
  split; [exact Hport|]. apply Hwf.
  unfold wf_header; simpl. lia.
Defined.

(** X10. For a time-exceeded message that quotes a probe of this run
    (stamped with a TTL in [0, 255]), [ICMPReceiver] recovers the port
    and the TTL of the probe; the rtt is the difference of the two masked
    clocks when the clock has not rolled over since the stamp, and
    otherwise that difference plus [2^32], a value above
    [2^32 - 2^24]: the response is emitted either way. *)
Theorem icmp_packet_recovers_probe af n port dst ack flagBits from ttl0
    sent_ms now_ms :
  outerIPHdrSize af + icmpHdrSize + innerIPHdrSize af + icmpTcpHdrSize <= n ->
  0 <= ttl0 <= 255 ->
  exists rtt,
    icmp_packet af n (icmpMsgType af) 0
      {| Source := port; Destination := dst;
         SeqNum := seqNum ttl0 sent_ms; AckNum := ack; Flags := flagBits |}
      from now_ms
    = Some {| icmpProbe := {| srcPort := port; ttl := ttl0 |};
              fromAddr := from; fromName := EmptyString; icmpRtt := rtt |} /\
    (clock24 sent_ms <= clock24 now_ms ->
     rtt = clock24 now_ms - clock24 sent_ms) /\
    (clock24 now_ms < clock24 sent_ms ->
     rtt = 2 ^ 32 + clock24 now_ms - clock24 sent_ms /\
     2 ^ 32 - 2 ^ 24 < rtt).
Proof.
  intros Hn Httl.
  rewrite icmp_packet_emits by exact Hn.
  cbn [Source SeqNum].
  rewrite seqNum_high, seqNum_low, <- clock24_mod.
  rewrite (Z.mod_small ttl0) by lia.
  eexists. split; [reflexivity|].
  pose proof (clock24_range sent_ms). pose proof (clock24_range now_ms).
  split; intros Hclock.
  - apply u32_small. lia.
  - unfold u32.
    replace (clock24 now_ms - clock24 sent_ms)
      with ((2 ^ 32 + clock24 now_ms - clock24 sent_ms) + (-1) * 2 ^ 32)
      by lia.
    rewrite Z.mod_add by lia. rewrite Z.mod_small by lia. lia.
Qed.

Lemma icmp_packet_recovers_probe_witness :
  exists rtt,
    icmp_packet Ip4 56 11 0
      {| Source := 32800; Destination := 22;
         SeqNum := seqNum 7 1700000000000; AckNum := 0; Flags := 0x02 |}
      "198.51.100.7" 1700000000042
    = Some {| icmpProbe := {| srcPort := 32800; ttl := 7 |};
              fromAddr := "198.51.100.7"; fromName := EmptyString;
              icmpRtt := rtt |} /\
    rtt = clock24 1700000000042 - clock24 1700000000000.
Proof.
  destruct (icmp_packet_recovers_probe Ip4 56 32800 22 0 0x02
              "198.51.100.7" 7 1700000000000 1700000000042)
    as (rtt & Hemit & Hfwd & _);
    [vm_compute; discriminate|lia|].
  exists rtt. split; [exact Hemit|].
  apply Hfwd. vm_compute. discriminate.
Defined.

(** X11. A resolver worker never changes the probe, the address or the
    rtt of a record: a TCP response passes unchanged, an ICMP response
    gets ["?"] as name when the lookup returns an error and the first
    name otherwise; and the only way the worker panics is an ICMP
    response whose lookup returns no error and no name. *)
Theorem resolve_keeps_probe (LookupAddr : string -> list string * option string)
    (val : Response) :
  (forall val', resolve LookupAddr val = Ok val' ->
     resp_probe val' = resp_probe val /\
     match val, val' with
     | RespTCP _, _ => val' = val
     | RespICMP resp, RespICMP resp' =>
         fromAddr resp' = fromAddr resp /\ icmpRtt resp' = icmpRtt resp /\
         ((fromName resp' = "?"%string /\
           exists names e, LookupAddr (fromAddr resp) = (names, Some e)) \/
          (exists rest,
             LookupAddr (fromAddr resp) = (fromName resp' :: rest, None)))
     | RespICMP _, RespTCP _ => False
     end) /\
  (forall p, resolve LookupAddr val = Panic p ->
     p = IndexOutOfRange /\
     exists resp, val = RespICMP resp /\
                  LookupAddr (fromAddr resp) = ([], None)).
Proof.
  destruct val as [resp|resp]; simpl.
  - destruct (LookupAddr (fromAddr resp)) as [names [e|]] eqn:Hlook.
    + split; [|discriminate]. intros val' [= <-]. simpl.
      repeat split. left. split; [reflexivity|]. eauto.
    + destruct names as [|name rest]; simpl.
      * split; [discriminate|]. intros p [= <-]. split; [reflexivity|].
        exists resp. rewrite Hlook. auto.
      * split; [|discriminate]. intros val' [= <-]. simpl.
        repeat split. right. eauto.
  - split; [|discriminate]. intros val' [= <-]. auto.
Qed.

Lemma resolve_keeps_probe_witness :
  exists val',
    resolve (fun _ => (["hop1.example."%string], None))
      (RespICMP {| icmpProbe := {| srcPort := 32800; ttl := 7 |};
                   fromAddr := "198.51.100.7"; fromName := EmptyString;
                   icmpRtt := 42 |}) = Ok val' /\
    resp_probe val' = {| srcPort := 32800; ttl := 7 |}.
Proof.
  eexists. split; [reflexivity|].
  apply (resolve_keeps_probe (fun _ => (["hop1.example."%string], None))
           (RespICMP {| icmpProbe := {| srcPort := 32800; ttl := 7 |};
                        fromAddr := "198.51.100.7"; fromName := EmptyString;
                        icmpRtt := 42 |})).
  reflexivity.
Defined.

(** ** More on the correlator *)

Module CorrelatorMore.
Import GoInt GoIntFacts Go GoFacts Wire Correlator CorrelatorFacts Events.
Local Open Scope Z_scope.

Section Main.

Variable flags : Options.

Abbreviation step := (Correlator.step flags).
Abbreviation run := (Correlator.run flags).
Abbreviation init := (Correlator.init flags).

(** *** Which events a successful run can hold *)

Lemma init_len_swept p :
  (swept flags p -> len (row (Sent (counters init)) p) = Z.max 0 (maxTTL flags)
                    /\ len (row (Rcvd (counters init)) p)
                       = Z.max 0 (maxTTL flags)) /\
  (~ swept flags p -> len (row (Sent (counters init)) p) = 0
                      /\ len (row (Rcvd (counters init)) p) = 0).
Proof.
  split; intros Hp.
  - destruct (rows_inv_init flags p Hp) as (HS & HR & _). auto.
  - destruct (init_rows_outside flags p Hp) as (HS & HR & _).
    simpl. rewrite HS, HR. auto.
Qed.

Lemma run_events_addressed evs : forall st st',
  (forall p, len (row (Sent (counters st)) p)
             = len (row (Sent (counters init)) p) /\
             len (row (Rcvd (counters st)) p)
             = len (row (Rcvd (counters init)) p)) ->
  run st evs = Ok st' ->
  Forall (fun ev => in_sweep flags (event_probe ev)) evs.
Proof.
  induction evs as [|ev evs IH]; intros st st' Hlen; simpl.
  - intros _. constructor.
  - intros (st1 & H1 & Hrun)%bind_Ok. constructor.
    + pose proof (step_in_range flags _ _ _ H1) as Hrange.
      assert (Hgen : forall p t,
                 (0 <= t - 1 < len (row (Sent (counters init)) p) \/
                  0 <= t - 1 < len (row (Rcvd (counters init)) p)) ->
                 swept flags p /\ 1 <= t <= maxTTL flags).
      { intros p t Hpt.
        destruct (init_len_swept p) as [Hin Hout].
        destruct (decide (swept flags p)) as [Hp|Hp].
        - destruct (Hin Hp) as [HS HR]. split; [exact Hp|]. lia.
        - destruct (Hout Hp) as [HS HR]. lia. }
      destruct ev as [probe|val]; simpl in *.
      * destruct (Hlen (srcPort probe)) as [HS _]. rewrite HS in Hrange.
        apply Hgen. left. exact Hrange.
      * destruct (Hlen (srcPort (resp_probe val))) as [_ HR].
        rewrite HR in Hrange. apply Hgen. right. exact Hrange.
    + apply (IH st1 st'); [|exact Hrun].
      intros p. destruct (step_len_rows flags _ _ _ p H1) as (-> & -> & _).
      apply Hlen.
Qed.

(** *** The path names *)

(** The name in a cell after a step: the one written by a response that
    hits the cell, the old one otherwise. *)
Lemma step_path_cell st ev st' p t :
  step st ev = Ok st' ->
  cell (Paths (counters st')) p t
  = match ev with
    | EvResponse val =>
        if hits_rcvd p t ev then Ok (written_name flags val)
        else cell (Paths (counters st)) p t
    | EvProbe _ => cell (Paths (counters st)) p t
    end.
Proof.
  destruct ev as [probe|[resp|resp]]; simpl.
  - unfold on_probe. intros (sent & _ & [= <-])%bind_Ok. reflexivity.
  - unfold on_icmp.
    intros (rcvd & _ & (cur & _ & (paths & Hp & [= <-])%bind_Ok)%bind_Ok)%bind_Ok.
    simpl. apply (cell_store_cell _ _ _ _ _ p t Hp).
  - unfold on_tcp.
    intros (done & _ & (rcvd & _ & (paths & Hp & [= <-])%bind_Ok)%bind_Ok)%bind_Ok.
    simpl. apply (cell_store_cell _ _ _ _ _ p t Hp).
Qed.

Lemma run_path_cell_untouched evs p t : forall st st',
  Forall (fun ev => hits_rcvd p t ev = false) evs ->
  run st evs = Ok st' ->
  cell (Paths (counters st')) p t = cell (Paths (counters st)) p t.
Proof.
  induction evs as [|ev evs IH]; intros st st' Hno; simpl.
  - intros [= <-]. reflexivity.
  - apply Forall_cons in Hno as [Hev Hno].
    intros (st1 & H1 & Hrun)%bind_Ok.
    rewrite (IH _ _ Hno Hrun), (step_path_cell _ _ _ p t H1).
    destruct ev as [probe|val]; [reflexivity|]. rewrite Hev. reflexivity.
Qed.

(** *** Flapped ports *)

(** The flapped ports after a step. *)
Lemma step_flapped st ev st' :
  step st ev = Ok st' ->
  match ev with
  | EvResponse (RespICMP resp) =>
      exists cur,
        cell (Paths (counters st)) (srcPort (icmpProbe resp))
             (ttl (icmpProbe resp) - 1) = Ok cur /\
        flappedPorts st'
        = if negb (String.eqb cur "?")
             && negb (String.eqb cur (fromName resp))
          then {[srcPort (icmpProbe resp)]} ∪ flappedPorts st
          else flappedPorts st
  | _ => flappedPorts st' = flappedPorts st
  end.
Proof.
  destruct ev as [probe|[resp|resp]]; simpl.
  - unfold on_probe. intros (sent & _ & [= <-])%bind_Ok. reflexivity.
  - unfold on_icmp.
    intros (rcvd & _ & (cur & Hc & (paths & _ & [= <-])%bind_Ok)%bind_Ok)%bind_Ok.
    simpl. exists cur. split; [exact Hc|reflexivity].
  - unfold on_tcp.
    intros (done & _ & (rcvd & _ & (paths & _ & [= <-])%bind_Ok)%bind_Ok)%bind_Ok.
    reflexivity.
Qed.

Lemma step_flapped_mono st ev st' :
  step st ev = Ok st' -> flappedPorts st ⊆ flappedPorts st'.
Proof.
  intros Hstep. apply step_flapped in Hstep.
  destruct ev as [probe|[resp|resp]]; try (rewrite Hstep; reflexivity).
  destruct Hstep as (cur & _ & ->).
  destruct (negb (String.eqb cur "?")
            && negb (String.eqb cur (fromName resp))); set_solver.
Qed.

Lemma run_flapped_mono evs : forall st st',
  run st evs = Ok st' -> flappedPorts st ⊆ flappedPorts st'.
Proof.
  induction evs as [|ev evs IH]; intros st st'; simpl.
  - intros [= <-]. reflexivity.
  - intros (st1 & H1 & Hrun)%bind_Ok.
    etransitivity; [eapply step_flapped_mono, H1|eapply IH, Hrun].
Qed.

Lemma count_responses_app p t evs1 evs2 :
  count_responses p t (evs1 ++ evs2)
  = count_responses p t evs1 + count_responses p t evs2.
Proof.
  unfold count_responses, len. rewrite filter_app, length_app. lia.
Qed.

Lemma count_responses_one p t ev :
  count_responses p t [ev] = if hits_rcvd p t ev then 1 else 0.
Proof.
  rewrite count_responses_cons. unfold count_responses, len. simpl.
  destruct (hits_rcvd p t ev); reflexivity.
Qed.

Lemma step_flap_inv st ev st' seen :
  flap_inv st seen -> step st ev = Ok st' -> flap_inv st' (seen ++ [ev]).
Proof.
  intros [Hname Hflap] Hstep.
  assert (Hmono : forall p t,
             count_responses p t seen <= count_responses p t (seen ++ [ev])).
  { intros p t. rewrite count_responses_app, count_responses_one.
    destruct (hits_rcvd p t ev); lia. }
  split.
  - intros p t name Hcell Hne.
    rewrite (step_path_cell _ _ _ p t Hstep) in Hcell.
    rewrite count_responses_app, count_responses_one.
    destruct ev as [probe|val].
    + simpl. specialize (Hname p t name Hcell Hne). lia.
    + destruct (hits_rcvd p t (EvResponse val)) eqn:Hhit.
      * pose proof (count_responses_range p t seen). lia.
      * specialize (Hname p t name Hcell Hne). lia.
  - intros p Hp.
    pose proof (step_flapped _ _ _ Hstep) as Hfl.
    assert (Hold : p ∈ flappedPorts st ->
                   exists t, 2 <= count_responses p t (seen ++ [ev])).
    { intros Hin. destruct (Hflap p Hin) as [t Ht]. exists t.
      specialize (Hmono p t). lia. }
    destruct ev as [probe|[resp|resp]];
      try (rewrite Hfl in Hp; auto).
    destruct Hfl as (cur & Hcur & Hfl). rewrite Hfl in Hp.
    destruct (String.eqb_spec cur "?") as [|Hq]; simpl in Hp; [auto|].
    destruct (String.eqb_spec cur (fromName resp)); simpl in Hp; [auto|].
    apply elem_of_union in Hp as [Hp|Hp]; [|auto].
    apply elem_of_singleton in Hp. subst p.
    exists (ttl (icmpProbe resp) - 1).
    specialize (Hname _ _ _ Hcur Hq).
    rewrite count_responses_app, count_responses_one. simpl.
    rewrite !Z.eqb_refl. simpl. lia.
Qed.

Lemma run_flap_inv evs : forall st st' seen,
  flap_inv st seen -> run st evs = Ok st' -> flap_inv st' (seen ++ evs).
Proof.
  induction evs as [|ev evs IH]; intros st st' seen Hinv; simpl.
  - intros [= <-]. rewrite app_nil_r. exact Hinv.
  - intros (st1 & H1 & Hrun)%bind_Ok.
    replace (seen ++ ev :: evs) with ((seen ++ [ev]) ++ evs)
      by (rewrite <- app_assoc; reflexivity).
    eapply IH; [|exact Hrun]. eapply step_flap_inv; eassumption.
Qed.

Lemma init_path_cell p t name :
  cell (Paths (counters init)) p t = Ok name -> name = "?"%string.
Proof.
  intros Hcell. destruct (decide (swept flags p)) as [Hp|Hp].
  - apply index_Ok in Hcell as [Hrange Hlook].
    destruct (init_rows_swept flags p Hp) as (_ & _ & HP).
    simpl in Hlook. rewrite HP in Hlook.
    apply lookup_replicate in Hlook as [-> _]. reflexivity.
  - destruct (init_rows_outside flags p Hp) as (_ & _ & HP).
    unfold cell in Hcell. simpl in Hcell. rewrite HP in Hcell.
    apply index_Ok in Hcell as [Hrange _]. unfold len in Hrange.
    simpl in Hrange. lia.
Qed.

Lemma flap_inv_init : flap_inv init [].
Proof.
  split.
  - intros p t name Hcell Hne. apply init_path_cell in Hcell. contradiction.
  - intros p Hp. simpl in Hp. set_solver.
Qed.

(** *** A TCP response below the first sender *)

Lemma close_senders_nil done k last :
  k < last -> index done k = Ok ChanNil ->
  close_senders done k last = Panic CloseOfNilChannel.
Proof.
  intros Hlt Hnil. unfold close_senders.
  destruct (Z.to_nat (last - k)) as [|fuel] eqn:Hfuel; [lia|].
  simpl. destruct (Z.ltb_spec k last); [|lia].
  rewrite Hnil. reflexivity.
Qed.

(** *** Truncation after a run *)

Lemma scan_target_None hopVector : forall i0,
  scan_target flags hopVector i0 = None ->
  forall j, i0 <= j < i0 + len hopVector -> j < maxTTL flags - 1 ->
            hopVector !! Z.to_nat (j - i0) <> Some (target flags).
Proof.
  induction hopVector as [|hop rest IH]; intros i0; simpl.
  - intros _ j Hj. unfold len in Hj. simpl in Hj. lia.
  - assert (Hlen : len (hop :: rest) = 1 + len rest)
      by (unfold len; simpl length; lia).
    rewrite Hlen.
    destruct (String.eqb_spec hop (target flags)) as [Heq|Hne];
      destruct (Z.ltb_spec i0 (maxTTL flags - 1)) as [Hlt|Hge]; simpl;
      try discriminate; intros Hscan j Hj Hmax;
      (destruct (Z.eq_dec j i0) as [->|Hj0];
       [rewrite Z.sub_diag; simpl; first [lia|congruence]
       |replace (Z.to_nat (j - i0)) with (S (Z.to_nat (j - (i0 + 1))))
          by lia;
        apply (IH (i0 + 1) Hscan); lia]).
Qed.

Lemma truncate_row_total c q hopVector :
  len hopVector <= len (row (Sent c) q) ->
  len hopVector <= len (row (Rcvd c) q) ->
  exists c', truncate_row flags c q hopVector = Ok c'.
Proof.
  intros HS HR. unfold truncate_row.
  destruct (scan_target flags hopVector 0) as [i|] eqn:Hscan; [|eauto].
  apply scan_target_Some in Hscan as (Hi & _).
  unfold slice_to.
  destruct (Z.leb_spec 0 (i + 1)), (Z.leb_spec (i + 1) (len (row (Sent c) q))),
    (Z.leb_spec (i + 1) (len (row (Rcvd c) q))); try lia.
  simpl. eauto.
Qed.

Lemma truncate_rows_total rows : forall c,
  NoDup rows.*1 ->
  (forall q hv, (q, hv) ∈ rows ->
                len hv <= len (row (Sent c) q) /\
                len hv <= len (row (Rcvd c) q)) ->
  exists c', truncate_rows flags c rows = Ok c'.
Proof.
  induction rows as [|[q hv0] rows IH]; intros c Hnodup Hlen; simpl;
    [eauto|].
  apply NoDup_cons in Hnodup as [Hq Hnodup].
  destruct (Hlen q hv0 ltac:(left)) as [HS HR].
  destruct (truncate_row_total c q hv0 HS HR) as [c1 H1]. rewrite H1. simpl.
  apply IH; [exact Hnodup|].
  intros p hv Hin.
  assert (Hpq : p <> q).
  { intros ->. apply Hq. apply list_elem_of_fmap. exists (q, hv). auto. }
  destruct (truncate_row_other _ _ _ _ _ p H1 Hpq) as [HS1 HR1].
  rewrite (row_lookup_eq _ _ p HS1), (row_lookup_eq _ _ p HR1).
  apply Hlen. right. exact Hin.
Qed.

Lemma run_rows_aligned evs st p :
  run init evs = Ok st ->
  len (row (Sent (counters st)) p) = len (row (Paths (counters st)) p) /\
  len (row (Rcvd (counters st)) p) = len (row (Paths (counters st)) p).
Proof.
  intros Hrun.
  destruct (run_len_rows flags evs _ _ p Hrun) as (-> & -> & ->).
  destruct (decide (swept flags p)) as [Hp|Hp].
  - destruct (rows_inv_init flags p Hp) as (-> & -> & ->). auto.
  - destruct (init_rows_outside flags p Hp) as (HS & HR & HP).
    simpl. rewrite HS, HR, HP. auto.
Qed.

End Main.

End CorrelatorMore.

Import CorrelatorMore Events.

(** ** The correlator: start-up, panics, names and flaps *)

(** X12. At start-up the three counter maps hold a row for exactly the
    ports [baseSrcPort .. baseSrcPort + maxSrcPorts - 1]: [maxTTL] zeros in
    [Sent] and [Rcvd] and [maxTTL] names ["?"] in [Paths]; no other port
    has a row. *)
Theorem init_counters_rows flags p :
  let n := Z.to_nat (maxTTL flags) in
  let inside :=
    (baseSrcPort flags <=? p)
    && (p <? baseSrcPort flags + maxSrcPorts flags) in
  Sent (init_counters flags) !! p
    = (if inside then Some (replicate n 0) else None) /\
  Rcvd (init_counters flags) !! p
    = (if inside then Some (replicate n 0) else None) /\
  Paths (init_counters flags) !! p
    = (if inside then Some (replicate n "?"%string) else None).
Proof.
  intros n inside. unfold init_counters.
  destruct (foldl_add_rows flags
              (seqZ (baseSrcPort flags) (maxSrcPorts flags)) newReport p)
    as (HS & HR & HP).
  simpl in HS, HR, HP. rewrite HS, HR, HP. subst inside.
  destruct (Z.leb_spec (baseSrcPort flags) p),
    (Z.ltb_spec p (baseSrcPort flags + maxSrcPorts flags)); simpl;
    try (rewrite !decide_False by (rewrite elem_of_seqZ; lia);
         rewrite !lookup_empty; auto).
  rewrite !decide_True by (rewrite elem_of_seqZ; lia). auto.
Qed.

(** X13. The two loops of [main] never panic on events whose port lies
    in the sweep and whose TTL lies in [1, maxTTL], provided no TCP
    response has a TTL below [minTTL - 1]: every such run completes. *)
Theorem run_completes_on_sweep flags evs :
  Forall (valid_event flags) evs ->
  exists st, run flags (init flags) evs = Ok st.
Proof.
  intros Hvalid.
  apply run_total;
    [apply watermark_inv_init|apply rows_inv_init|exact Hvalid].
Qed.

Lemma run_completes_on_sweep_witness :
  Forall (valid_event small_flags) two_hop_run /\
  exists st, run small_flags (init small_flags) two_hop_run = Ok st.
Proof.
  assert (Hvalid : Forall (valid_event small_flags) two_hop_run).
  { unfold two_hop_run. repeat constructor; simpl; lia. }
  split; [exact Hvalid|].
  apply (run_completes_on_sweep small_flags two_hop_run Hvalid).
Defined.

(** X14. Conversely, a run that completes has processed only probes and
    responses whose port lies in the sweep and whose TTL lies in
    [1, maxTTL]: any other event makes the correlator panic. *)
Theorem run_completes_only_on_sweep flags evs st :
  run flags (init flags) evs = Ok st ->
  Forall (fun ev => in_sweep flags (event_probe ev)) evs.
Proof.
  apply run_events_addressed. intros p. auto.
Qed.

Lemma run_completes_only_on_sweep_witness :
  exists st,
    run small_flags (init small_flags) two_hop_run = Ok st /\
    Forall (fun ev => in_sweep small_flags (event_probe ev)) two_hop_run.
Proof.
  destruct (run small_flags (init small_flags) two_hop_run) as [st|e] eqn:Hrun;
    [|vm_compute in Hrun; discriminate].
  exists st. split; [reflexivity|].
  apply (run_completes_only_on_sweep small_flags two_hop_run st Hrun).
Defined.

(** X15. The stop channels of the TTLs below [minTTL] are nil. At any
    point of a run, a TCP response whose TTL [k] satisfies
    [0 <= k < minTTL - 1] and is below the watermark [lastClosed] makes
    the correlator close the nil channel [senderDone[k]] and panic. *)
Theorem tcp_below_minTTL_panics flags evs st resp :
  run flags (init flags) evs = Ok st ->
  0 <= ttl (tcpProbe resp) < minTTL flags - 1 ->
  ttl (tcpProbe resp) < lastClosed st ->
  step flags st (EvResponse (RespTCP resp)) = Panic CloseOfNilChannel.
Proof.
  intros Hrun Hk Hlast.
  pose proof (run_watermark_inv flags evs _ _ (watermark_inv_init flags) Hrun)
    as [Hmax Hex].
  simpl. unfold on_tcp.
  rewrite close_senders_nil; [reflexivity|exact Hlast|].
  rewrite Hex.
  destruct (Z.leb_spec 0 (ttl (tcpProbe resp))),
    (Z.ltb_spec (ttl (tcpProbe resp)) (maxTTL flags)); try lia.
  simpl. unfold chan_at.
  destruct (Z.ltb_spec (ttl (tcpProbe resp)) (minTTL flags - 1)); [|lia].
  reflexivity.
Qed.

Lemma tcp_below_minTTL_panics_witness :
  exists st,
    run {| maxTTL := 30; minTTL := 3; maxSrcPorts := 2;
           baseSrcPort := 32768; showAll := false;
           target := "target.example" |}
        (init {| maxTTL := 30; minTTL := 3; maxSrcPorts := 2;
                 baseSrcPort := 32768; showAll := false;
                 target := "target.example" |})
        [probe_ev 32768 3] = Ok st /\
    step {| maxTTL := 30; minTTL := 3; maxSrcPorts := 2;
            baseSrcPort := 32768; showAll := false;
            target := "target.example" |} st (tcp_ev 32768 1)
    = Panic CloseOfNilChannel.
Proof.
  destruct (run {| maxTTL := 30; minTTL := 3; maxSrcPorts := 2;
                   baseSrcPort := 32768; showAll := false;
                   target := "target.example" |}
              (init {| maxTTL := 30; minTTL := 3; maxSrcPorts := 2;
                       baseSrcPort := 32768; showAll := false;
                       target := "target.example" |})
              [probe_ev 32768 3]) as [st|e] eqn:Hrun;
    [|vm_compute in Hrun; discriminate].
  exists st. split; [reflexivity|].
  apply (tcp_below_minTTL_panics _ [probe_ev 32768 3] st
           {| tcpProbe := {| srcPort := 32768; ttl := 1 |}; tcpRtt := 1 |}
           Hrun); simpl; [lia|].
  rewrite (run_lastClosed _ _ _ _ Hrun). simpl. lia.
Defined.

(** X16. The set of flapped ports only grows, and a port is flapped only
    after at least two responses were processed for one of its cells: a
    port whose every (port, TTL) cell received at most one response is
    never marked, and neither probes nor TCP responses mark any port. *)
Theorem flapped_needs_two_responses flags evs st :
  run flags (init flags) evs = Ok st ->
  (forall p, p ∈ flappedPorts st ->
             exists t, 2 <= count_responses p t evs) /\
  (forall ev st', step flags st ev = Ok st' ->
                  flappedPorts st ⊆ flappedPorts st' /\
                  match ev with
                  | EvResponse (RespICMP _) => True
                  | _ => flappedPorts st' = flappedPorts st
                  end).
Proof.
  intros Hrun. split.
  - destruct (run_flap_inv flags evs _ _ [] (flap_inv_init flags) Hrun)
      as [_ Hflap].
    exact Hflap.
  - intros ev st' Hstep. split; [eapply step_flapped_mono, Hstep|].
    apply step_flapped in Hstep.
    destruct ev as [probe|[resp|resp]]; auto.
Qed.

Lemma flapped_needs_two_responses_witness :
  exists st,
    run small_flags (init small_flags)
        [icmp_ev 32768 1 "a.example"; icmp_ev 32768 1 "b.example"] = Ok st /\
    (32768 ∈ flappedPorts st ->
     exists t, 2 <= count_responses 32768 t
                      [icmp_ev 32768 1 "a.example";
                       icmp_ev 32768 1 "b.example"]).
Proof.
  destruct (run small_flags (init small_flags)
              [icmp_ev 32768 1 "a.example"; icmp_ev 32768 1 "b.example"])
    as [st|e] eqn:Hrun; [|vm_compute in Hrun; discriminate].
  exists st. split; [reflexivity|].
  apply (flapped_needs_two_responses small_flags _ st Hrun).
Defined.

(** X17. A cell of [Paths] holds the name written by the last response
    processed for that cell (the resolved hop name of an ICMP response,
    the target name for a TCP response), whatever was processed for
    other cells since; a cell of the sweep for which no response was
    processed still holds ["?"]. *)
Theorem path_cell_last_response flags p t :
  (forall evs1 val evs2 st,
     run flags (init flags) (evs1 ++ EvResponse val :: evs2) = Ok st ->
     hits_rcvd p t (EvResponse val) = true ->
     Forall (fun ev => hits_rcvd p t ev = false) evs2 ->
     cell (Paths (counters st)) p t = Ok (written_name flags val)) /\
  (forall evs st,
     run flags (init flags) evs = Ok st ->
     Forall (fun ev => hits_rcvd p t ev = false) evs ->
     swept flags p -> 0 <= t < maxTTL flags ->
     cell (Paths (counters st)) p t = Ok "?"%string).
Proof.
  split.
  - intros evs1 val evs2 st Hrun Hhit Hno.
    rewrite run_app in Hrun.
    apply bind_Ok in Hrun as (st1 & _ & Hrun). simpl in Hrun.
    apply bind_Ok in Hrun as (st2 & H2 & Hrun).
    rewrite (run_path_cell_untouched flags evs2 p t _ _ Hno Hrun).
    assert (Hstep : step flags st1 (EvResponse val) = Ok st2) by exact H2.
    rewrite (step_path_cell flags _ _ _ p t Hstep), Hhit. reflexivity.
  - intros evs st Hrun Hno Hp Ht.
    rewrite (run_path_cell_untouched flags evs p t _ _ Hno Hrun).
    apply (init_cells flags p t Hp Ht).
Qed.

Lemma path_cell_last_response_witness :
  exists st,
    run small_flags (init small_flags)
        ([icmp_ev 32768 1 "a.example"]
         ++ icmp_ev 32768 1 "b.example" :: [tcp_ev 32768 2]) = Ok st /\
    cell (Paths (counters st)) 32768 0 = Ok "b.example"%string.
Proof.
  destruct (run small_flags (init small_flags)
              ([icmp_ev 32768 1 "a.example"]
               ++ icmp_ev 32768 1 "b.example" :: [tcp_ev 32768 2]))
    as [st|e] eqn:Hrun; [|vm_compute in Hrun; discriminate].
  exists st. split; [reflexivity|].
  destruct (path_cell_last_response small_flags 32768 0) as [Hlast _].
  apply (Hlast [icmp_ev 32768 1 "a.example"]
               (RespICMP {| icmpProbe := {| srcPort := 32768; ttl := 1 |};
                            fromAddr := "198.51.100.7";
                            fromName := "b.example";
                            icmpRtt := 1 |})
               [tcp_ev 32768 2] st Hrun); [reflexivity|].
  repeat constructor.
Defined.

(** ** Truncation *)

(** X18. The truncation pass never changes [Paths]. For a port whose
    path row holds the target name at a first index [i] below
    [maxTTL - 1], it replaces [Sent] and [Rcvd] of the port by their
    first [i + 1] entries; for a port whose path row holds the target
    nowhere below [maxTTL - 1], and for a port without a path row, it
    leaves [Sent] and [Rcvd] as they are. *)
Theorem truncate_cuts_counters flags c c' p :
  truncate flags c = Ok c' ->
  Paths c' = Paths c /\
  match Paths c !! p with
  | Some hopVector =>
      match scan_target flags hopVector 0 with
      | Some i =>
          0 <= i < len hopVector /\ i < maxTTL flags - 1 /\
          hopVector !! Z.to_nat i = Some (target flags) /\
          (forall j, 0 <= j < i ->
                     hopVector !! Z.to_nat j <> Some (target flags)) /\
          Sent c' !! p = Some (take (Z.to_nat (i + 1)) (row (Sent c) p)) /\
          Rcvd c' !! p = Some (take (Z.to_nat (i + 1)) (row (Rcvd c) p))
      | None =>
          (forall j, 0 <= j < len hopVector -> j < maxTTL flags - 1 ->
                     hopVector !! Z.to_nat j <> Some (target flags)) /\
          Sent c' !! p = Sent c !! p /\ Rcvd c' !! p = Rcvd c !! p
      end
  | None => Sent c' !! p = Sent c !! p /\ Rcvd c' !! p = Rcvd c !! p
  end.
Proof.
  intros Htr. split; [eapply truncate_Paths, Htr|].
  unfold truncate in Htr.
  destruct (truncate_rows_spec flags _ c c' p
              (NoDup_fst_map_to_list (Paths c)) Htr) as [Hout Hin].
  destruct (Paths c !! p) as [hopVector|] eqn:Hp.
  - specialize (Hin hopVector).
    destruct (scan_target flags hopVector 0) as [i|] eqn:Hscan.
    + destruct Hin as [HS HR]; [apply elem_of_map_to_list; exact Hp|].
      apply scan_target_Some in Hscan as (Hi & Hmax & Hat & Hfirst).
      rewrite Z.sub_0_r in Hat.
      split; [lia|]. split; [exact Hmax|]. split; [exact Hat|].
      split; [|auto].
      intros j Hj. specialize (Hfirst j Hj). rewrite Z.sub_0_r in Hfirst.
      exact Hfirst.
    + destruct Hin as [HS HR]; [apply elem_of_map_to_list; exact Hp|].
      split; [|auto].
      intros j Hj Hmax.
      pose proof (scan_target_None flags hopVector 0 Hscan j ltac:(lia) Hmax)
        as Hnone.
      rewrite Z.sub_0_r in Hnone. exact Hnone.
  - apply Hout. intros Hin'.
    apply list_elem_of_fmap in Hin' as ([q hv] & -> & Hin').
    apply elem_of_map_to_list in Hin'. simpl in Hp. congruence.
Qed.

Lemma truncate_cuts_counters_witness :
  exists st c',
    run small_flags (init small_flags) two_hop_run = Ok st /\
    truncate small_flags (counters st) = Ok c' /\
    Paths c' = Paths (counters st) /\
    Sent c' !! 32768 = Some [1; 1] /\ Rcvd c' !! 32768 = Some [1; 1].
Proof.
  destruct (run small_flags (init small_flags) two_hop_run) as [st|e] eqn:Hrun;
    [|vm_compute in Hrun; discriminate].
  destruct (truncate small_flags (counters st)) as [c'|e] eqn:Htr;
    [|vm_compute in Hrun; injection Hrun as <-;
      vm_compute in Htr; discriminate].
  exists st, c'. split; [reflexivity|]. split; [exact Htr|].
  destruct (truncate_cuts_counters small_flags (counters st) c' 32768 Htr)
    as [HP _].
  split; [exact HP|].
  vm_compute in Hrun. injection Hrun as <-.
  vm_compute in Htr. injection Htr as <-.
  split; reflexivity.
Defined.

(** X19. After any run that completed, the truncation pass completes as
    well: it never slices [Sent] or [Rcvd] beyond their length. *)
Theorem truncate_completes_after_run flags evs st :
  run flags (init flags) evs = Ok st ->
  exists c', truncate flags (counters st) = Ok c'.
Proof.
  intros Hrun. unfold truncate.
  apply truncate_rows_total; [apply NoDup_fst_map_to_list|].
  intros q hv Hin. apply elem_of_map_to_list in Hin.
  destruct (run_rows_aligned flags evs st q Hrun) as [HS HR].
  rewrite HS, HR. unfold row. rewrite Hin. simpl. lia.
Qed.

Lemma truncate_completes_after_run_witness :
  exists st c',
    run small_flags (init small_flags) two_hop_run = Ok st /\
    truncate small_flags (counters st) = Ok c'.
Proof.
  destruct (run small_flags (init small_flags) two_hop_run) as [st|e] eqn:Hrun;
    [|vm_compute in Hrun; discriminate].
  destruct (truncate_completes_after_run small_flags two_hop_run st Hrun)
    as [c' Htr].
  exists st, c'. split; [reflexivity|exact Htr].
Defined.

(** ** The report *)

Module ReportFacts.
Import Go GoFacts Wire Classifier Correlator CorrelatorFacts Events.
Local Open Scope Z_scope.

Section Main.

Variable flags : Options.
Variable flapped : gset Z.
Variable c : Report.

(** One iteration of the report loop either adds the port with its three
    vectors or leaves the report alone. *)
Lemma classify_row_entry lossy q sv lossy' :
  classify_row flags flapped c lossy q sv = Ok lossy' ->
  lossy' = match report_entry flags flapped c q sv with
           | Some (rv, hosts) =>
               {| Paths := <[q := hosts]> (Paths lossy);
                  Sent := <[q := sv]> (Sent lossy);
                  Rcvd := <[q := rv]> (Rcvd lossy) |}
           | None => lossy
           end.
Proof.
  unfold classify_row, report_entry.
  destruct (decide (q ∈ flapped)); [intros [= <-]; reflexivity|].
  destruct (Rcvd c !! q) as [rv|]; [|intros [= <-]; reflexivity].
  destruct (normalizeRcvd sv rv) as [norm|]; [|intros [= <-]; reflexivity].
  destruct (isLossy norm || showAll flags); [|intros [= <-]; reflexivity].
  intros (hosts & [_ ->]%slice_to_Ok & [= <-])%bind_Ok. reflexivity.
Qed.

Lemma classify_rows_entry rows : forall lossy lossy' p,
  NoDup rows.*1 ->
  classify_rows flags flapped c lossy rows = Ok lossy' ->
  (p ∉ rows.*1 ->
   Sent lossy' !! p = Sent lossy !! p /\
   Rcvd lossy' !! p = Rcvd lossy !! p /\
   Paths lossy' !! p = Paths lossy !! p) /\
  (forall sv, (p, sv) ∈ rows ->
   match report_entry flags flapped c p sv with
   | Some (rv, hosts) =>
       Sent lossy' !! p = Some sv /\ Rcvd lossy' !! p = Some rv /\
       Paths lossy' !! p = Some hosts
   | None =>
       Sent lossy' !! p = Sent lossy !! p /\
       Rcvd lossy' !! p = Rcvd lossy !! p /\
       Paths lossy' !! p = Paths lossy !! p
   end).
Proof.
  induction rows as [|[q sv0] rows IH]; intros lossy lossy' p Hnodup; simpl.
  - intros [= <-]. split; [auto|]. intros sv Hin. inversion Hin.
  - apply NoDup_cons in Hnodup as [Hq Hnodup].
    intros (l1 & H1 & Hrest)%bind_Ok.
    apply classify_row_entry in H1.
    destruct (IH l1 lossy' p Hnodup Hrest) as [IHout IHin].
    assert (Hother : p <> q ->
              Sent l1 !! p = Sent lossy !! p /\
              Rcvd l1 !! p = Rcvd lossy !! p /\
              Paths l1 !! p = Paths lossy !! p).
    { intros Hpq. rewrite H1.
      destruct (report_entry flags flapped c q sv0) as [[rv hosts]|];
        [|auto].
      simpl. rewrite !lookup_insert_ne by congruence. auto. }
    split.
    + intros Hp. apply not_elem_of_cons in Hp as [Hpq Hp].
      destruct (IHout Hp) as (-> & -> & ->). apply Hother, Hpq.
    + intros sv Hin. apply elem_of_cons in Hin as [[= -> ->]|Hin].
      * destruct (IHout Hq) as (-> & -> & ->). rewrite H1.
        destruct (report_entry flags flapped c q sv0) as [[rv hosts]|];
          [|auto].
        simpl. rewrite !lookup_insert_eq. auto.
      * assert (Hpq : p <> q).
        { intros ->. apply Hq. apply list_elem_of_fmap.
          exists (q, sv). auto. }
        specialize (IHin sv Hin).
        destruct (Hother Hpq) as (HS & HR & HP).
        destruct (report_entry flags flapped c p sv) as [[rv hosts]|];
          [exact IHin|].
        rewrite <- HS, <- HR, <- HP. exact IHin.
Qed.

(** The report, port by port. *)
Lemma classify_lookup lossy p :
  classify flags flapped c = Ok lossy ->
  match Sent c !! p with
  | Some sv =>
      match report_entry flags flapped c p sv with
      | Some (rv, hosts) =>
          Sent lossy !! p = Some sv /\ Rcvd lossy !! p = Some rv /\
          Paths lossy !! p = Some hosts
      | None =>
          Sent lossy !! p = None /\ Rcvd lossy !! p = None /\
          Paths lossy !! p = None
      end
  | None =>
      Sent lossy !! p = None /\ Rcvd lossy !! p = None /\
      Paths lossy !! p = None
  end.
Proof.
  intros Hcl. unfold classify in Hcl.
  destruct (classify_rows_entry _ newReport lossy p
              (NoDup_fst_map_to_list (Sent c)) Hcl) as [Hout Hin].
  simpl in Hout, Hin. rewrite !lookup_empty in Hout.
  destruct (Sent c !! p) as [sv|] eqn:Hp.
  - specialize (Hin sv ltac:(apply elem_of_map_to_list; exact Hp)).
    rewrite !lookup_empty in Hin. exact Hin.
  - apply Hout. intros Hin'.
    apply list_elem_of_fmap in Hin' as ([q sv] & -> & Hin').
    apply elem_of_map_to_list in Hin'. simpl in Hp. congruence.
Qed.

End Main.

End ReportFacts.

Import ReportFacts.

(** X20. The report holds a port exactly when the port is not flapped,
    has a [Sent] and a [Rcvd] row of one length, and its hit rates are
    lossy or [showAll] is set. A reported port carries the [Sent] and
    [Rcvd] rows of the counters and the first [len(Sent)] hops of its
    path, so its three vectors have one length; a port that is not
    reported appears in none of the three maps. *)
Theorem classify_report flags flapped c lossy p :
  classify flags flapped c = Ok lossy ->
  match Paths lossy !! p with
  | Some hosts =>
      (p ∉ flapped) /\
      exists sv rv norm,
        Sent c !! p = Some sv /\ Rcvd c !! p = Some rv /\
        normalizeRcvd sv rv = Some norm /\
        (isLossy norm || showAll flags) = true /\
        Sent lossy !! p = Some sv /\ Rcvd lossy !! p = Some rv /\
        hosts = take (length sv) (row (Paths c) p) /\
        len sv = len rv /\
        (length sv <= length (row (Paths c) p))%nat
  | None =>
      Sent lossy !! p = None /\ Rcvd lossy !! p = None /\
      (p ∈ flapped \/ Sent c !! p = None \/ Rcvd c !! p = None \/
       exists sv rv,
         Sent c !! p = Some sv /\ Rcvd c !! p = Some rv /\
         (normalizeRcvd sv rv = None \/
          exists norm, normalizeRcvd sv rv = Some norm /\
                       (isLossy norm || showAll flags) = false))
  end.
Proof.
  intros Hcl. pose proof (classify_lookup flags flapped c lossy p Hcl) as Hl.
  destruct (Sent c !! p) as [sv|] eqn:HS.
  2:{ destruct Hl as (-> & -> & ->).
      split; [reflexivity|]. split; [reflexivity|]. right. left. reflexivity. }
  unfold report_entry in Hl.
  destruct (decide (p ∈ flapped)) as [Hf|Hf].
  { destruct Hl as (-> & -> & ->).
    split; [reflexivity|]. split; [reflexivity|]. left. exact Hf. }
  destruct (Rcvd c !! p) as [rv|] eqn:HR.
  2:{ destruct Hl as (-> & -> & ->).
      split; [reflexivity|]. split; [reflexivity|].
      right. right. left. reflexivity. }
  destruct (normalizeRcvd sv rv) as [norm|] eqn:Hn.
  2:{ destruct Hl as (-> & -> & ->).
      split; [reflexivity|]. split; [reflexivity|].
      right. right. right. exists sv, rv.
      split; [reflexivity|]. split; [reflexivity|]. left. exact Hn. }
  destruct (isLossy norm || showAll flags) eqn:Hlossy.
  2:{ destruct Hl as (-> & -> & ->).
      split; [reflexivity|]. split; [reflexivity|].
      right. right. right. exists sv, rv.
      split; [reflexivity|]. split; [reflexivity|].
      right. exists norm. split; [exact Hn|exact Hlossy]. }
  destruct Hl as (HSl & HRl & ->).
  split; [exact Hf|]. exists sv, rv, norm.
  destruct (normalizeRcvd_len _ _ _ Hn) as [HlenS HlenR].
  assert (Hnat : Z.to_nat (len norm) = length sv) by (unfold len in *; lia).
  rewrite Hnat. repeat split; auto; try lia.
  (* the copy of the hops did not panic *)
  unfold classify in Hcl.
  assert (Hin : (p, sv) ∈ map_to_list (Sent c))
    by (apply elem_of_map_to_list; exact HS).
  clear HSl HRl.
  revert Hcl. generalize newReport.
  induction (map_to_list (Sent c)) as [|[q sv0] rows IH]; intros l0;
    [inversion Hin|].
  simpl. intros (l1 & H1 & Hrest)%bind_Ok.
  apply elem_of_cons in Hin as [[= <- <-]|Hin]; [|eapply IH; eassumption].
  unfold classify_row in H1.
  destruct (decide (p ∈ flapped)); [contradiction|].
  rewrite HR, Hn, Hlossy in H1.
  apply bind_Ok in H1 as (hosts & [Hrange _]%slice_to_Ok & _).
  unfold len in *. lia.
Qed.

Lemma classify_report_witness :
  exists st c' lossy,
    run (Build_Options 4 1 2 32768 true "target.example")
        (init (Build_Options 4 1 2 32768 true "target.example"))
        two_hop_run = Ok st /\
    truncate (Build_Options 4 1 2 32768 true "target.example") (counters st)
      = Ok c' /\
    classify (Build_Options 4 1 2 32768 true "target.example")
             (flappedPorts st) c' = Ok lossy /\
    Sent lossy !! 32768 = Some [1; 1] /\
    Rcvd lossy !! 32768 = Some [1; 1] /\
    Paths lossy !! 32768
      = Some ["hop1.example"; "target.example"]%string.
Proof.
  set (fl := Build_Options 4 1 2 32768 true "target.example").
  destruct (run fl (init fl) two_hop_run) as [st|e] eqn:Hrun;
    [|vm_compute in Hrun; discriminate].
  destruct (truncate fl (counters st)) as [c'|e] eqn:Htr;
    [|vm_compute in Hrun; injection Hrun as <-;
      vm_compute in Htr; discriminate].
  destruct (classify fl (flappedPorts st) c') as [lossy|e] eqn:Hcl;
    [|vm_compute in Hrun; injection Hrun as <-;
      vm_compute in Htr; injection Htr as <-;
      vm_compute in Hcl; discriminate].
  exists st, c', lossy.
  split; [reflexivity|]. split; [exact Htr|]. split; [exact Hcl|].
  pose proof (classify_report fl (flappedPorts st) c' lossy 32768 Hcl) as Hrep.
  vm_compute in Hrun. injection Hrun as <-.
  vm_compute in Htr. injection Htr as <-.
  assert (HP : Paths lossy !! 32768
               = Some ["hop1.example"; "target.example"]%string)
    by (vm_compute in Hcl; injection Hcl as <-; reflexivity).
  rewrite HP in Hrep.
  destruct Hrep as (_ & sv & rv & norm & HS & HR & _ & _ & HSl & HRl & _).
  vm_compute in HS. injection HS as <-.
  vm_compute in HR. injection HR as <-.
  auto.
Defined.
